(** * A shallow embedding of the ray-tracing core of stevenwinfield/raytrace

    Python floats are modelled as the extended reals of IEEE arithmetic
    without rounding ([xfloat]: a real, +inf, -inf or nan); vectors, whose
    components are always finite, as triples of reals.  Python exceptions
    are the error branch of the result monad [res]. *)

From Stdlib Require Import Reals Lra Lia List ZArith Bool Permutation Btauto.
Import ListNotations.
Open Scope R_scope.

(** ** Python floats *)

Inductive xfloat : Type :=
| Fin (r : R)
| PInf
| NInf
| NaN.

(** Modelled from the spec: the module [constants] is not part of the
    sources; the spec gives a ray's default interval as (0, +inf), so
    [INFINITY] is the float +inf. *)
Definition INFINITY : xfloat := PInf.

Definition Rltb (x y : R) : bool := if Rlt_dec x y then true else false.
Definition Rleb (x y : R) : bool := if Rle_dec x y then true else false.
Definition Reqb (x y : R) : bool := if Req_EM_T x y then true else false.

(** [a < b] on Python floats; every comparison with nan is false. *)
Definition xlt (a b : xfloat) : bool :=
  match a, b with
  | Fin x, Fin y => Rltb x y
  | NInf, Fin _ | NInf, PInf | Fin _, PInf => true
  | _, _ => false
  end.

(** [a <= b] on Python floats. *)
Definition xle (a b : xfloat) : bool :=
  match a, b with
  | Fin x, Fin y => Rleb x y
  | NInf, NInf | PInf, PInf => true
  | NInf, Fin _ | NInf, PInf | Fin _, PInf => true
  | _, _ => false
  end.

(** [a == b] on Python floats. *)
Definition xeqb (a b : xfloat) : bool :=
  match a, b with
  | Fin x, Fin y => Reqb x y
  | PInf, PInf | NInf, NInf => true
  | _, _ => false
  end.

Definition xneg (a : xfloat) : xfloat :=
  match a with
  | Fin x => Fin (- x)
  | PInf => NInf
  | NInf => PInf
  | NaN => NaN
  end.

Definition xadd (a b : xfloat) : xfloat :=
  match a, b with
  | Fin x, Fin y => Fin (x + y)
  | NaN, _ | _, NaN => NaN
  | PInf, NInf | NInf, PInf => NaN
  | PInf, _ | _, PInf => PInf
  | NInf, _ | _, NInf => NInf
  end.

Definition xsub (a b : xfloat) : xfloat := xadd a (xneg b).

(** The sign of an infinite product: [inf * 0] is nan. *)
Definition xscale_inf (pos : bool) (y : R) : xfloat :=
  if Rltb 0 y then (if pos then PInf else NInf)
  else if Rltb y 0 then (if pos then NInf else PInf)
  else NaN.

Definition xmul (a b : xfloat) : xfloat :=
  match a, b with
  | Fin x, Fin y => Fin (x * y)
  | NaN, _ | _, NaN => NaN
  | PInf, Fin y | Fin y, PInf => xscale_inf true y
  | NInf, Fin y | Fin y, NInf => xscale_inf false y
  | PInf, PInf | NInf, NInf => PInf
  | PInf, NInf | NInf, PInf => NInf
  end.

(** [a / d] for a finite, non-zero divisor [d] (the only divisions of
    possibly infinite floats in the sources). *)
Definition xdiv (a : xfloat) (d : R) : xfloat :=
  match a with
  | Fin x => Fin (x / d)
  | PInf => xscale_inf true d
  | NInf => xscale_inf false d
  | NaN => NaN
  end.

(** Python's [min(a, b)]: [b] only when [b < a]. *)
Definition py_min (a b : R) : R := if Rltb b a then b else a.

(** ** Exceptions and the result monad *)

Inductive exc : Type :=
| TypeError
| AttributeError
| ZeroDivisionError
| IndexError
| StructError
| AssertionError
| ValueError
| EOFError
| KeyError
| ValueErrorPixel (x y : Z) (cause : exc).

Inductive res (A : Type) : Type :=
| Ok (a : A)
| Err (e : exc).
Arguments Ok {A} a.
Arguments Err {A} e.

Definition bind {A B} (m : res A) (k : A -> res B) : res B :=
  match m with
  | Ok a => k a
  | Err e => Err e
  end.

Notation "x <- m ;; k" := (bind m (fun x => k))
  (at level 61, m at next level, right associativity).

(** ** vector.Vector *)

Record vec : Type := Vec { vx : R; vy : R; vz : R }.

Definition vadd (a b : vec) : vec := Vec (vx a + vx b) (vy a + vy b) (vz a + vz b).
Definition vsub (a b : vec) : vec := Vec (vx a - vx b) (vy a - vy b) (vz a - vz b).
Definition vneg (a : vec) : vec := Vec (- vx a) (- vy a) (- vz a).
Definition vscale (k : R) (a : vec) : vec := Vec (k * vx a) (k * vy a) (k * vz a).
Definition vdot (a b : vec) : R := vx a * vx b + vy a * vy b + vz a * vz b.
Definition norm2 (a : vec) : R := vdot a a.
Definition norm (a : vec) : R := sqrt (norm2 a).

(** [Vector.__truediv__]: dividing by [0.0] raises. *)
Definition vdiv (a : vec) (k : R) : res vec :=
  if Reqb k 0 then Err ZeroDivisionError
  else Ok (Vec (vx a / k) (vy a / k) (vz a / k)).

(** [Vector.normalized] and the in-place [Vector.normalize]. *)
Definition normalized (a : vec) : res vec := vdiv a (norm a).

(** [Vector.__getitem__] on the tuple [(x, y, z)]. *)
Definition vget (a : vec) (i : nat) : R :=
  match i with
  | 0%nat => vx a
  | 1%nat => vy a
  | _ => vz a
  end.

(** [Vector.reflected]. *)
Definition reflected (a n : vec) : vec := vsub a (vscale (2 * vdot a n) n).

(** ** ray.Ray *)

Record ray : Type := Ray {
  source : vec;
  direction : vec;
  min_distance : xfloat;
  max_distance : xfloat
}.

(** The constructor [Ray(source, direction, min_distance=0.0,
    max_distance=INFINITY)] normalises the direction. *)
Definition mk_ray (s d : vec) (lo hi : xfloat) : res ray :=
  d' <- normalized d ;; Ok (Ray s d' lo hi).

Definition mk_ray_default (s d : vec) : res ray := mk_ray s d (Fin 0) INFINITY.

(** [Ray.point]. *)
Definition point (r : ray) (t : R) : vec := vadd (source r) (vscale t (direction r)).

(** [Ray.__neg__]: same source and bounds, opposite direction (rebuilt
    through the constructor). *)
Definition ray_neg (r : ray) : res ray :=
  mk_ray (source r) (vneg (direction r)) (min_distance r) (max_distance r).

(** [ray.min_distance < d < ray.max_distance]. *)
Definition in_range (r : ray) (d : xfloat) : bool :=
  xlt (min_distance r) d && xlt d (max_distance r).

(** What [intersection(ray, compute_normal)] returns: a distance (or
    [None]) and a normal (or [None]). *)
Definition isect : Type := (option xfloat * option vec)%type.

(** [None @ v] raises; only a [Vector] normal can be dotted. *)
Definition odot (n : option vec) (v : vec) : res R :=
  match n with
  | Some n => Ok (vdot n v)
  | None => Err TypeError
  end.

(** ** primitive.AxisAlignedBox *)

Record aabox : Type := AABox {
  xmin : xfloat; xmax : xfloat;
  ymin : xfloat; ymax : xfloat;
  zmin : xfloat; zmax : xfloat
}.

(** [self.min[i]] and [self.max[i]]. *)
Definition box_min (b : aabox) (i : nat) : xfloat :=
  match i with 0%nat => xmin b | 1%nat => ymin b | _ => zmin b end.
Definition box_max (b : aabox) (i : nat) : xfloat :=
  match i with 0%nat => xmax b | 1%nat => ymax b | _ => zmax b end.

(** [AxisAlignedBox._tests]: (index, other1, other2, normal). *)
Definition aab_tests : list (nat * nat * nat * vec) :=
  [(0, 1, 2, Vec 1 0 0); (1, 2, 0, Vec 0 1 0); (2, 0, 1, Vec 0 0 1)]%nat.

(** One plane of a pair: the body of the inner [for] loop, updating the
    running (min_intersection_distance, min_normal). *)
Definition aab_plane (b : aabox) (r : ray) (index o1 o2 : nat)
    (acc : xfloat * option vec) (plane_distance : xfloat) (this_normal : vec)
    : xfloat * option vec :=
  let '(md, mn) := acc in
  let d := xdiv (xsub plane_distance (Fin (vget (source r) index)))
                (vget (direction r) index) in
  if in_range r d then
    let i1 := xadd (Fin (vget (source r) o1)) (xmul d (Fin (vget (direction r) o1))) in
    if xle (box_min b o1) i1 && xle i1 (box_max b o1) then
      let i2 := xadd (Fin (vget (source r) o2)) (xmul d (Fin (vget (direction r) o2))) in
      if xle (box_min b o2) i2 && xle i2 (box_max b o2) && xlt d md
      then (d, Some this_normal)
      else (md, mn)
    else (md, mn)
  else (md, mn).

(** The outer loop of [AxisAlignedBox._intersection].  The [return]
    statement is indented inside the [for] body, so the method returns
    after the first axis the ray is not parallel to; when every axis is
    skipped the loop ends and the method returns [None] ([Datatypes.None]
    here). *)
Fixpoint aab_loop (b : aabox) (r : ray) (tests : list (nat * nat * nat * vec))
    (acc : xfloat * option vec) : option (xfloat * option vec) :=
  match tests with
  | [] => None
  | (index, o1, o2, n) :: rest =>
      if Reqb (vget (direction r) index) 0 then aab_loop b r rest acc
      else
        let acc1 := aab_plane b r index o1 o2 acc (box_min b index) (vneg n) in
        let acc2 := aab_plane b r index o1 o2 acc1 (box_max b index) n in
        Some acc2
  end.

(** [AxisAlignedBox.intersection] (through [Primitive.intersection], whose
    [distance, normal = ...] raises on a [None] result). *)
Definition aab_intersection (b : aabox) (r : ray) (compute_normal : bool) : res isect :=
  match aab_loop b r aab_tests (INFINITY, None) with
  | None => Err TypeError
  | Some (d, n) => Ok (Some d, n)
  end.

(** The slab test as the spec words it: all three axis pairs are examined,
    the globally minimal valid distance is kept, and the result is returned
    after the loop ([None] when nothing was found). *)
Fixpoint aab_loop_all_axes (b : aabox) (r : ray) (tests : list (nat * nat * nat * vec))
    (acc : xfloat * option vec) : xfloat * option vec :=
  match tests with
  | [] => acc
  | (index, o1, o2, n) :: rest =>
      if Reqb (vget (direction r) index) 0 then aab_loop_all_axes b r rest acc
      else
        let acc1 := aab_plane b r index o1 o2 acc (box_min b index) (vneg n) in
        let acc2 := aab_plane b r index o1 o2 acc1 (box_max b index) n in
        aab_loop_all_axes b r rest acc2
  end.

Definition aab_intersection_all_axes (b : aabox) (r : ray) : isect :=
  let '(d, n) := aab_loop_all_axes b r aab_tests (INFINITY, None) in
  if xeqb d INFINITY then (None, None) else (Some d, n).

(** Python's [min(a, b)] and [max(a, b)] on floats. *)
Definition xmin2 (a b : xfloat) : xfloat := if xlt b a then b else a.
Definition xmax2 (a b : xfloat) : xfloat := if xlt a b then b else a.

(** [AxisAlignedBox.combine]. *)
Definition combine (a b : aabox) : aabox :=
  AABox (xmin2 (xmin a) (xmin b)) (xmax2 (xmax a) (xmax b))
        (xmin2 (ymin a) (ymin b)) (xmax2 (ymax a) (ymax b))
        (xmin2 (zmin a) (zmin b)) (xmax2 (zmax a) (zmax b)).

(** [AxisAlignedBox.overlap]: [None] when the boxes are disjoint. *)
Definition overlap (a b : aabox) : option aabox :=
  let x0 := xmax2 (xmin a) (xmin b) in
  let x1 := xmin2 (xmax a) (xmax b) in
  if xlt x1 x0 then None else
  let y0 := xmax2 (ymin a) (ymin b) in
  let y1 := xmin2 (ymax a) (ymax b) in
  if xlt y1 y0 then None else
  let z0 := xmax2 (zmin a) (zmin b) in
  let z1 := xmin2 (zmax a) (zmax b) in
  if xlt z1 z0 then None else
  Some (AABox x0 x1 y0 y1 z0 z1).

(** [AxisAlignedBox.volume]. *)
Definition volume (b : aabox) : xfloat :=
  xmul (xmul (xsub (xmax b) (xmin b)) (xsub (ymax b) (ymin b)))
       (xsub (zmax b) (zmin b)).

(** ** primitive.Sphere *)

(** [Sphere._intersection]: the smaller in-range root, else the other
    in-range root, else no hit. *)
Definition sphere_distance (centre : vec) (radius : R) (r : ray) : option R :=
  let diff := vsub centre (source r) in
  let diff2 := norm2 diff in
  let projection := vdot (direction r) diff in
  let discriminant := projection * projection - diff2 + radius * radius in
  if Rltb discriminant 0 then None
  else
    let sq := sqrt discriminant in
    let distance1 := projection + sq in
    let distance2 := projection - sq in
    let visible1 := in_range r (Fin distance1) in
    let visible2 := in_range r (Fin distance2) in
    if visible1 then
      (if visible2 then Some (py_min distance1 distance2) else Some distance1)
    else if visible2 then Some distance2
    else None.

Definition sphere_intersection (centre : vec) (radius : R) (r : ray)
    (compute_normal : bool) : res isect :=
  let d := sphere_distance centre radius r in
  if compute_normal then
    match d with
    | None => Ok (None, None)
    | Some t => n <- normalized (vsub (point r t) centre) ;; Ok (Some (Fin t), Some n)
    end
  else Ok (option_map Fin d, None).

(** [Sphere._bounding_box]. *)
Definition sphere_bounding_box (c : vec) (radius : R) : aabox :=
  AABox (Fin (vx c - radius)) (Fin (vx c + radius))
        (Fin (vy c - radius)) (Fin (vy c + radius))
        (Fin (vz c - radius)) (Fin (vz c + radius)).

(** ** colour.Colour and material.Material *)

(** The component setters of [Colour] store [max(0.0, value)]. *)
Record colour : Type := MkColour { red : R; green : R; blue : R }.

Definition py_max0 (v : R) : R := if Rltb 0 v then v else 0.

(** [Colour(red, green, blue)]. *)
Definition Colour (r g b : R) : colour := MkColour (py_max0 r) (py_max0 g) (py_max0 b).

Definition BLACK : colour := Colour 0 0 0.

(** [Colour.__add__] / [__iadd__]. *)
Definition cadd (a b : colour) : colour :=
  Colour (red a + red b) (green a + green b) (blue a + blue b).

(** [Colour.__mul__] / [__imul__] by a number. *)
Definition cscale (a : colour) (k : R) : colour :=
  Colour (red a * k) (green a * k) (blue a * k).

(** [max(min(v, max_value), min_value)] with Python's [min]/[max]. *)
Definition py_clamp (v lo hi : R) : R :=
  let m := if Rltb hi v then hi else v in
  if Rltb m lo then lo else m.

(** [Colour.clamped()]: clamp every component to [0, 1]. *)
Definition clamped (a : colour) : colour :=
  Colour (py_clamp (red a) 0 1) (py_clamp (green a) 0 1) (py_clamp (blue a) 0 1).

Record material : Type := Material {
  ambient : colour;
  diffuse : colour;
  reflectivity : R;
  specular : colour;
  shinyness : R
}.

(** A shader is an opaque handle. *)
Definition shader : Type := nat.

(** ** Solids: primitives and CSG nodes *)

Inductive solid : Type :=
| SBox (b : aabox) (m : option material) (sh : option shader)
| SSphere (centre : vec) (radius : R) (m : option material) (sh : option shader)
| SIntersection (object1 object2 : solid) (m : option material) (sh : option shader)
| SInverse (object : solid).

(** [x or INFINITY] for an optional distance: [None], [0.0] and [-0.0]
    are falsy. *)
Definition or_inf (d : option xfloat) : xfloat :=
  match d with
  | None => INFINITY
  | Some (Fin x) => if Reqb x 0 then INFINITY else Fin x
  | Some x => x
  end.

(** The inside test of [Intersection._intersection] for one child, from
    its forward and backward results:
    [(d_fwd is not None and min < d_fwd < max and n_fwd @ ray.direction > 0.0)
     or (d_back is not None and min' < d_back < max' and n_back @ ray.direction < 0.0)]. *)
Definition inside_test (r back : ray) (fwd bwd : isect) : res bool :=
  let '(df, nf) := fwd in
  let '(db, nb) := bwd in
  f <- (match df with
        | None => Ok false
        | Some d =>
            if in_range r d then (x <- odot nf (direction r) ;; Ok (Rltb 0 x))
            else Ok false
        end) ;;
  if f then Ok true
  else match db with
       | None => Ok false
       | Some d =>
           if in_range back d then (x <- odot nb (direction r) ;; Ok (Rltb x 0))
           else Ok false
       end.

(** [csg.Intersection._intersection], given the children's
    [intersection] methods. *)
Definition csg_intersection (f1 f2 : ray -> bool -> res isect) (r : ray) : res isect :=
  back <- ray_neg r ;;
  p1f <- f1 r true ;;
  p1b <- f1 back true ;;
  inside1 <- inside_test r back p1f p1b ;;
  p2f <- f2 r true ;;
  p2b <- f2 back true ;;
  inside2 <- inside_test r back p2f p2b ;;
  let '(first, second) :=
    if xlt (or_inf (fst p1f)) (or_inf (fst p2f)) then (p1f, p2f) else (p2f, p1f) in
  if inside1 then (if inside2 then Ok first else Ok p2f)
  else if inside2 then Ok p1f
  else match fst p1f, fst p2f with
       | Some _, Some _ => Ok second
       | _, _ => Ok (None, None)
       end.

(** [csg.Inverse._intersection]: the child's distance, the normal negated. *)
Definition inverse_intersection (f : ray -> bool -> res isect) (r : ray)
    (compute_normal : bool) : res isect :=
  p <- f r compute_normal ;;
  Ok (fst p, option_map vneg (snd p)).

(** [intersection(ray, compute_normal)] of every solid. *)
Fixpoint intersection (s : solid) (r : ray) (compute_normal : bool) : res isect :=
  match s with
  | SBox b _ _ => aab_intersection b r compute_normal
  | SSphere c radius _ _ => sphere_intersection c radius r compute_normal
  | SIntersection o1 o2 _ _ => csg_intersection (intersection o1) (intersection o2) r
  | SInverse o => inverse_intersection (intersection o) r compute_normal
  end.

(** [csg.Difference(object1, object2)]. *)
Definition Difference (o1 o2 : solid) (m : option material) (sh : option shader) : solid :=
  SIntersection o1 (SInverse o2) m sh.

(** The [_cached_bounding_box] attribute of a freshly built solid:
    [Primitive.__init__] sets it to [None]; [Inverse.__init__] does not call
    [Primitive.__init__], so an [Inverse] has no such attribute (outer
    [None]). *)
Definition initial_cache (s : solid) : option (option aabox) :=
  match s with
  | SInverse _ => None
  | _ => Some None
  end.

(** [Primitive.bounding_box]: read [self._cached_bounding_box] (a missing
    attribute raises), compute [self._bounding_box()] when it is falsy. *)
Definition primitive_bounding_box (cache : option (option aabox))
    (compute : res (option aabox)) : res (option aabox) :=
  match cache with
  | None => Err AttributeError
  | Some (Some b) => Ok (Some b)
  | Some None => compute
  end.

(** [bounding_box()] of a freshly built solid, with each class's
    [_bounding_box]; [box1.overlap(box2)] raises when [box1] or [box2] is
    [None]. *)
Fixpoint bounding_box (s : solid) : res (option aabox) :=
  primitive_bounding_box (initial_cache s)
    (match s with
     | SBox b _ _ => Ok (Some b)
     | SSphere c radius _ _ => Ok (Some (sphere_bounding_box c radius))
     | SIntersection o1 o2 _ _ =>
         b1 <- bounding_box o1 ;;
         b2 <- bounding_box o2 ;;
         match b1, b2 with
         | Some b1, Some b2 => Ok (overlap b1 b2)
         | _, _ => Err AttributeError
         end
     | SInverse o => bounding_box o
     end).

(** The [material] attribute ([Inverse] proxies it to its child). *)
Fixpoint material_of (s : solid) : option material :=
  match s with
  | SBox _ m _ | SSphere _ _ m _ | SIntersection _ _ m _ => m
  | SInverse o => material_of o
  end.

(** The [shader] attribute ([Inverse] proxies it to its child). *)
Fixpoint shader_of (s : solid) : option shader :=
  match s with
  | SBox _ _ sh | SSphere _ _ _ sh | SIntersection _ _ _ sh => sh
  | SInverse o => shader_of o
  end.

(** ** scene.Scene and scene.ObjectGroup *)

(** The solids of a scene are any objects with an [intersection] and a
    [bounding_box] method.  Python sets are lists in iteration order; the
    order is left open wherever the sources depend on it. *)
Section SceneQueries.
Variable obj : Type.
Variable obj_intersection : obj -> ray -> bool -> res isect.
Variable obj_bounding_box : obj -> res (option aabox).

(** A query result: (object, distance, normal). *)
Definition hit : Type := (option obj * option xfloat * option vec)%type.

(** The running (min_obj, min_distance, min_normal) of both loops. *)
Definition acc : Type := (option obj * xfloat * option vec)%type.

Definition acc_init : acc := (None, INFINITY, None).

(** [if distance is not None and distance < min_distance: ...] *)
Definition keep_nearest (a : acc) (h : hit) : acc :=
  let '(o, d, n) := h in
  match d with
  | Some d => if xlt d (snd (fst a)) then (o, d, n) else a
  | None => a
  end.

(** [if min_distance == INFINITY: min_distance = None]. *)
Definition finish (a : acc) : hit :=
  let '(o, d, n) := a in (o, if xeqb d INFINITY then None else Some d, n).

(** The loop of [Scene.intersection] (the linear scan). *)
Fixpoint scan (objs : list obj) (r : ray) (cn : bool) (a : acc) : res acc :=
  match objs with
  | [] => Ok a
  | o :: rest =>
      p <- obj_intersection o r cn ;;
      scan rest r cn (keep_nearest a (Some o, fst p, snd p))
  end.

(** [Scene.intersection(ray, compute_normal)]. *)
Definition scene_intersection (objs : list obj) (r : ray) (cn : bool) : res hit :=
  a <- scan objs r cn acc_init ;; Ok (finish a).

(** The tree of [ObjectGroup]s; every group built by [_compute_tree] has
    two children, listed in the iteration order of its [objects] set. *)
Inductive tree : Type :=
| Leaf (o : obj)
| Group (bb : option aabox) (t1 t2 : tree).

(** [ObjectGroup.intersection]: the box test first, then each child (a
    leaf answers (distance, normal) and stands for itself). *)
Fixpoint tree_query (t : tree) (r : ray) (cn : bool) : res hit :=
  match t with
  | Leaf o => p <- obj_intersection o r cn ;; Ok (Some o, fst p, snd p)
  | Group bb t1 t2 =>
      match bb with
      | None => Err AttributeError
      | Some bb =>
          bp <- aab_intersection bb r false ;;
          match fst bp with
          | None => Ok (None, None, None)
          | Some _ =>
              h1 <- tree_query t1 r cn ;;
              let a1 := keep_nearest acc_init h1 in
              h2 <- tree_query t2 r cn ;;
              let a2 := keep_nearest a1 h2 in
              Ok (finish a2)
          end
      end
  end.

(** [bounding_box()] of a tree node. *)
Definition tree_bounding_box (t : tree) : res (option aabox) :=
  match t with
  | Leaf o => obj_bounding_box o
  | Group bb _ _ => Ok bb
  end.

(** [ObjectGroup.print]: evaluates the volume of every box it meets;
    [None.volume()] raises. *)
Fixpoint tree_print (t : tree) : res unit :=
  match t with
  | Leaf o => b <- obj_bounding_box o ;;
      match b with Some _ => Ok tt | None => Err AttributeError end
  | Group bb t1 t2 =>
      match bb with
      | None => Err AttributeError
      | Some _ => _ <- tree_print t1 ;; tree_print t2
      end
  end.

(** [combined_volume(box1, obj2)]. *)
Definition combined_volume (box1 : option aabox) (t : tree) : res xfloat :=
  box2 <- tree_bounding_box t ;;
  match box1, box2 with
  | Some b1, Some b2 => Ok (volume (combine b1 b2))
  | _, _ => Err AttributeError
  end.

(** Python's [min(iterable, key=key)]: the first item whose key no later
    item beats. *)
Fixpoint py_min_from (key : tree -> res xfloat) (best : tree) (kbest : xfloat)
    (l : list tree) : res tree :=
  match l with
  | [] => Ok best
  | x :: xs =>
      kx <- key x ;;
      if xlt kx kbest then py_min_from key x kx xs else py_min_from key best kbest xs
  end.

Definition py_min_key (key : tree -> res xfloat) (l : list tree) : res tree :=
  match l with
  | [] => Err ValueError
  | x :: xs => kx <- key x ;; py_min_from key x kx xs
  end.

(** [ObjectGroup(obj, best)]: [add_object(obj)] then [add_object(best)];
    [swap] tells the iteration order of the two-element set. *)
Definition make_group (t best : tree) (swap : bool) : res tree :=
  b1 <- tree_bounding_box t ;;
  bb <- (match b1 with
         | None => tree_bounding_box best
         | Some b1 =>
             b2 <- tree_bounding_box best ;;
             match b2 with
             | Some b2 => Ok (Some (combine b1 b2))
             | None => Err AttributeError
             end
         end) ;;
  Ok (if swap then Group bb best t else Group bb t best).

(** The [while len(objects) > 1] loop of [Scene._compute_tree], then
    [self.tree = objects.pop()].  [objects.pop()] takes any element, the
    order of the remaining set is any order, and [objects.add] puts the new
    group anywhere. *)
Inductive tree_loop : list tree -> res tree -> Prop :=
| TL_one t : tree_loop [t] (Ok t)
| TL_step S t rest b1 best rest' swap g S' out :
    Permutation S (t :: rest) -> rest <> [] ->
    tree_bounding_box t = Ok b1 ->
    py_min_key (combined_volume b1) rest = Ok best ->
    Permutation rest (best :: rest') ->
    make_group t best swap = Ok g ->
    Permutation S' (g :: rest') ->
    tree_loop S' out -> tree_loop S out
| TL_err_box S t rest e :
    Permutation S (t :: rest) -> rest <> [] ->
    tree_bounding_box t = Err e -> tree_loop S (Err e)
| TL_err_min S t rest b1 e :
    Permutation S (t :: rest) -> rest <> [] ->
    tree_bounding_box t = Ok b1 ->
    py_min_key (combined_volume b1) rest = Err e -> tree_loop S (Err e)
| TL_err_group S t rest b1 best rest' swap e :
    Permutation S (t :: rest) -> rest <> [] ->
    tree_bounding_box t = Ok b1 ->
    py_min_key (combined_volume b1) rest = Ok best ->
    Permutation rest (best :: rest') ->
    make_group t best swap = Err e -> tree_loop S (Err e).

(** The first call of [Scene.intersection_old] (the tree query): build the
    tree ([_compute_tree] leaves [self.tree] as [None] for fewer than two
    solids), print it, query it. *)
Inductive intersection_old (objs : list obj) (r : ray) (cn : bool) : res hit -> Prop :=
| IO_small : (length objs < 2)%nat -> intersection_old objs r cn (Err AttributeError)
| IO_tree rt :
    (2 <= length objs)%nat ->
    tree_loop (map Leaf objs) rt ->
    intersection_old objs r cn (t <- rt ;; _ <- tree_print t ;; tree_query t r cn).

(** [functools.lru_cache] hashes the arguments before calling; [Vector]
    defines [__eq__] without [__hash__], so Python sets its [__hash__] to
    [None] and a [Vector] argument raises [TypeError: unhashable type]. *)
Definition vector_hashable : bool := false.

Definition lru_cache_call {A} (args_hashable : bool) (body : unit -> res A) : res A :=
  if args_hashable then body tt else Err TypeError.

(** The body of [Scene.is_obscured]; [distance - diff.norm()] raises when
    [distance] is [None]. *)
Definition is_obscured_body (tol : R) (objs : list obj) (src dst : vec) : res bool :=
  let diff := vsub dst src in
  r <- mk_ray_default src diff ;;
  h <- scene_intersection objs r false ;;
  match snd (fst h) with
  | None => Err TypeError
  | Some d => Ok (xlt (xsub d (Fin (norm diff))) (Fin tol))
  end.

(** [Scene.is_obscured(source, destination)], decorated with [lru_cache];
    [tol] is [INTERSECTION_TOLERANCE]. *)
Definition is_obscured (tol : R) (objs : list obj) (src dst : vec) : res bool :=
  lru_cache_call (vector_hashable && vector_hashable)
    (fun _ => is_obscured_body tol objs src dst).

End SceneQueries.

Arguments Leaf {obj} o.
Arguments Group {obj} bb t1 t2.

(** ** Invariants of the two scene queries *)

(** A float other than nan. *)
Definition not_nan (x : xfloat) : Prop := x <> NaN.

Section SceneAgreementDefs.
Variable obj : Type.
Variable obj_intersection : obj -> ray -> bool -> res isect.
Variable obj_bounding_box : obj -> res (option aabox).

(** The value a hit competes with in [distance < min_distance]: a missing
    or nan distance never wins, as +inf never does. *)
Definition hit_key (h : hit obj) : xfloat :=
  match snd (fst h) with
  | Some NaN | None => PInf
  | Some x => x
  end.

(** The least key over a list of hits (+inf when there is none). *)
Definition min_key (hs : list (hit obj)) : xfloat :=
  fold_right (fun h m => xmin2 (hit_key h) m) PInf hs.

(** The running (min_obj, min_distance, min_normal) after the hits [hs]:
    its distance is the least key, and it is the initial value when that
    key is +inf, one of the hits otherwise. *)
Definition acc_ok (hs : list (hit obj)) (a : acc obj) : Prop :=
  let '(o, d, n) := a in
  d = min_key hs /\
  (d = PInf -> a = acc_init obj) /\
  (d <> PInf -> In (o, Some d, n) hs).

(** A query answer stands for the hits [hs]: its key is their least key,
    and, unless that is +inf, its object and normal are those of one of the
    hits at that distance. *)
Definition represents (hs : list (hit obj)) (h : hit obj) : Prop :=
  let '(o, d, n) := h in
  hit_key h = min_key hs /\
  (min_key hs <> PInf -> In (o, Some (min_key hs), n) hs).

(** The solids at the leaves of a tree. *)
Fixpoint leaves (t : tree obj) : list obj :=
  match t with
  | Leaf o => [o]
  | Group _ t1 t2 => leaves t1 ++ leaves t2
  end.

(** Every group has a box and every solid has a bounding box. *)
Fixpoint good_tree (t : tree obj) : Prop :=
  match t with
  | Leaf o => exists b, obj_bounding_box o = Ok (Some b)
  | Group bb t1 t2 => bb <> None /\ good_tree t1 /\ good_tree t2
  end.

(** The hit the loops see for solid [o] (one that does not raise). *)
Definition solid_hit (r : ray) (cn : bool) (o : obj) : hit obj :=
  match obj_intersection o r cn with
  | Ok p => (Some o, fst p, snd p)
  | Err _ => (Some o, None, None)
  end.
End SceneAgreementDefs.

(** ** result.RenderResult *)

Inductive component : Type := CRed | CGreen | CBlue | CAlpha | CDistance.

(** [ResultComponent.value]. *)
Definition component_value (c : component) : Z :=
  match c with
  | CRed => 1 | CGreen => 2 | CBlue => 3 | CAlpha => 4 | CDistance => 5
  end%Z.

(** [ResultComponent(v)]: an unknown value raises. *)
Definition component_of_value (v : Z) : res component :=
  match v with
  | 1%Z => Ok CRed | 2%Z => Ok CGreen | 3%Z => Ok CBlue
  | 4%Z => Ok CAlpha | 5%Z => Ok CDistance
  | _ => Err ValueError
  end.

Definition component_eqb (a b : component) : bool := Z.eqb (component_value a) (component_value b).

(** [d[k] = v] on a dict kept in insertion order. *)
Fixpoint dict_set (d : list (component * nat)) (k : component) (v : nat)
    : list (component * nat) :=
  match d with
  | [] => [(k, v)]
  | (k', v') :: rest =>
      if component_eqb k k' then (k', v) :: rest else (k', v') :: dict_set rest k v
  end.

Fixpoint dict_get (d : list (component * nat)) (k : component) : res nat :=
  match d with
  | [] => Err KeyError
  | (k', v) :: rest => if component_eqb k k' then Ok v else dict_get rest k
  end.

(** [{component: index for index, component in enumerate(components)}]. *)
Fixpoint enumerate_into (d : list (component * nat)) (i : nat) (cs : list component)
    : list (component * nat) :=
  match cs with
  | [] => d
  | c :: rest => enumerate_into (dict_set d c i) (S i) rest
  end.

Definition component_index_of (cs : list component) : list (component * nat) :=
  enumerate_into [] 0 cs.

(** The stored doubles are their 64-bit IEEE-754 patterns. *)
Record render_result : Type := RenderResult {
  width : Z;
  height : Z;
  component_index : list (component * nat);
  data : list Z;
  row_stride : Z
}.

(** [RenderResult(width, height, components)]: [range] of a negative size
    is empty; [0.0] is the all-zero pattern. *)
Definition mk_render_result (w h : Z) (cs : list component) : render_result :=
  let n := Z.of_nat (length cs) in
  RenderResult w h (component_index_of cs) (repeat 0%Z (Z.to_nat (w * h * n))) (w * n).

(** Python list/array indexing, negative indices counting from the end. *)
Definition py_index (len : nat) (i : Z) : res nat :=
  if (0 <=? i)%Z && (i <? Z.of_nat len)%Z then Ok (Z.to_nat i)
  else if (- Z.of_nat len <=? i)%Z && (i <? 0)%Z then Ok (Z.to_nat (Z.of_nat len + i))
  else Err IndexError.

Fixpoint list_set {A} (l : list A) (i : nat) (v : A) : list A :=
  match l, i with
  | [], _ => []
  | _ :: xs, O => v :: xs
  | x :: xs, S i => x :: list_set xs i v
  end.

(** [RenderResult._index]. *)
Definition result_index (rr : render_result) (x y : Z) (c : component) : res Z :=
  k <- dict_get (component_index rr) c ;;
  Ok (row_stride rr * y + Z.of_nat (length (component_index rr)) * x + Z.of_nat k)%Z.

(** [RenderResult.__setitem__]. *)
Definition setitem (rr : render_result) (x y : Z) (c : component) (v : Z)
    : res render_result :=
  i <- result_index rr x y c ;;
  k <- py_index (length (data rr)) i ;;
  Ok (RenderResult (width rr) (height rr) (component_index rr)
                   (list_set (data rr) k v) (row_stride rr)).

(** [RenderResult.__getitem__]. *)
Definition getitem (rr : render_result) (x y : Z) (c : component) : res Z :=
  i <- result_index rr x y c ;;
  k <- py_index (length (data rr)) i ;;
  Ok (nth k (data rr) 0%Z).

(** Bytes are integers in [0, 256). *)
Fixpoint le_bytes (n : nat) (v : Z) : list Z :=
  match n with
  | O => []
  | S n => (v mod 256)%Z :: le_bytes n (v / 256)%Z
  end.

Fixpoint le_value (bs : list Z) : Z :=
  match bs with
  | [] => 0%Z
  | b :: rest => (b + 256 * le_value rest)%Z
  end.

Definition int32_ok (v : Z) : bool := (- 2 ^ 31 <=? v)%Z && (v <? 2 ^ 31)%Z.

(** [struct.Struct("<3i").pack]: out-of-range integers raise
    [struct.error]. *)
Definition pack_3i (a b c : Z) : res (list Z) :=
  if int32_ok a && int32_ok b && int32_ok c
  then Ok (le_bytes 4 (a mod 2 ^ 32) ++ le_bytes 4 (b mod 2 ^ 32) ++ le_bytes 4 (c mod 2 ^ 32))
  else Err StructError.

Definition unpack_i32 (bs : list Z) : Z :=
  let u := le_value bs in if (2 ^ 31 <=? u)%Z then (u - 2 ^ 32)%Z else u.

(** [struct.Struct("<3i").unpack] of exactly 12 bytes. *)
Definition unpack_3i (bs : list Z) : res (Z * Z * Z) :=
  if Nat.eqb (length bs) 12 then
    Ok (unpack_i32 (firstn 4 bs), unpack_i32 (firstn 4 (skipn 4 bs)),
        unpack_i32 (skipn 8 bs))
  else Err StructError.

(** [sorted(items, key=lambda pair: pair[1])]: a stable insertion sort. *)
Fixpoint insert_by_index (p : component * nat) (l : list (component * nat))
    : list (component * nat) :=
  match l with
  | [] => [p]
  | q :: rest => if Nat.ltb (snd p) (snd q) then p :: q :: rest else q :: insert_by_index p rest
  end.

Fixpoint sort_by_index (l : list (component * nat)) : list (component * nat) :=
  match l with
  | [] => []
  | p :: rest => insert_by_index p (sort_by_index rest)
  end.

Definition magic : list Z := [83; 65; 87; 0]%Z.

Fixpoint list_Z_eqb (a b : list Z) : bool :=
  match a, b with
  | [], [] => true
  | x :: xs, y :: ys => Z.eqb x y && list_Z_eqb xs ys
  | _, _ => false
  end.

(** Reading [n] doubles with [array.fromfile]. *)
Fixpoint read_doubles (n : nat) (bs : list Z) : res (list Z) :=
  match n with
  | O => Ok []
  | S n =>
      if Nat.ltb (length bs) 8 then Err EOFError
      else rest <- read_doubles n (skipn 8 bs) ;; Ok (le_value (firstn 8 bs) :: rest)
  end.

Fixpoint read_components (n : nat) (bs : list Z) : res (list component) :=
  match n with
  | O => Ok []
  | S n =>
      match bs with
      | [] => Err TypeError
      | b :: rest => c <- component_of_value b ;; cs <- read_components n rest ;; Ok (c :: cs)
      end
  end.

(** [RenderResult.tofile] and [RenderResult.fromfile] of
    [raytrace/result.py]: the magic bytes, then the header, the component
    bytes and the doubles (native little-endian order) through the stream
    compressor.  [result.py] is the same format with the identity codec. *)
Section Serialisation.
Variable compress : list Z -> list Z.
Variable decompress : list Z -> res (list Z).

Definition tofile (rr : render_result) : res (list Z) :=
  header <- pack_3i (width rr) (height rr) (Z.of_nat (length (component_index rr))) ;;
  let comps := map (fun p => component_value (fst p)) (sort_by_index (component_index rr)) in
  Ok (magic ++ compress (header ++ comps ++ flat_map (le_bytes 8) (data rr))).

Definition fromfile (file : list Z) : res render_result :=
  if list_Z_eqb (firstn 4 file) magic then
    payload <- decompress (skipn 4 file) ;;
    hdr <- unpack_3i (firstn 12 payload) ;;
    let '(w, h, n) := hdr in
    cs <- read_components (Z.to_nat n) (skipn 12 payload) ;;
    let rr := mk_render_result w h cs in
    let count := (w * h * n)%Z in
    if (count <? 0)%Z then Err ValueError
    else
      d <- read_doubles (Z.to_nat count) (skipn (12 + Z.to_nat n) payload) ;;
      Ok (RenderResult (width rr) (height rr) (component_index rr) d (row_stride rr))
  else Err AssertionError.

End Serialisation.

(** [result.py]: the same format written to the file object directly. *)
Definition plain_compress (bs : list Z) : list Z := bs.
Definition plain_decompress (bs : list Z) : res (list Z) := Ok bs.

(** A result as [RenderResult(width, height, components)] builds it for
    distinct [components], its array holding 64-bit patterns. *)
Definition result_well_formed (rr : render_result) (cs : list component) : Prop :=
  NoDup cs /\
  component_index rr = component_index_of cs /\
  row_stride rr = (width rr * Z.of_nat (length cs))%Z /\
  length (data rr) = Z.to_nat (width rr * height rr * Z.of_nat (length cs)) /\
  Forall (fun v => 0 <= v < 2 ^ 64)%Z (data rr).

(** ** renderer.Renderer *)

(** [light.Ambient] and [light.Point]; anything else in [scene.lights]
    is skipped by the shading loop. *)
Inductive light : Type :=
| Ambient (c : colour)
| Point (position : vec) (c : colour) (intensity : R)
| OtherLight.

Section Renderer.
Variable obj : Type.
(** [obj.material]. *)
Variable obj_material : obj -> option material.
(** [scene.intersection(ray, compute_normal, *extra)]: the last argument is
    the optional third positional argument. *)
Variable scene_call : ray -> bool -> option (option obj) -> res (option obj * option xfloat * option vec).
Variable lights : list light.
Variable compute_ambient compute_diffuse compute_specular :
  option obj -> vec -> option vec -> light -> res colour.
Variable recursion_depth : nat.

(** The [for light in scene.lights] loop of [_compute_colour]. *)
Fixpoint shade_lights (o : option obj) (ip : vec) (n : option vec) (c : colour)
    (ls : list light) : res colour :=
  match ls with
  | [] => Ok c
  | l :: rest =>
      match l with
      | Ambient _ =>
          a <- compute_ambient o ip n l ;; shade_lights o ip n (cadd c a) rest
      | Point _ _ _ =>
          d <- compute_diffuse o ip n l ;;
          s <- compute_specular o ip n l ;;
          shade_lights o ip n (cadd (cadd c d) s) rest
      | OtherLight => shade_lights o ip n c rest
      end
  end.

(** [obj.material.reflectivity]; [None] has no attribute. *)
Definition reflectivity_of (o : option obj) : res R :=
  match o with
  | None => Err AttributeError
  | Some o' =>
      match obj_material o' with
      | None => Err AttributeError
      | Some m => Ok (reflectivity m)
      end
  end.

(** [Renderer._compute_colour], with [fuel] bounding the recursion;
    [None] means the fuel ran out.  Vectors here are finite, so a
    non-finite hit distance is reported as an error. *)
Fixpoint compute_colour (fuel : nat) (r : ray) (depth : nat) (so : option obj)
    : option (res colour) :=
  match fuel with
  | O => None
  | S fuel' =>
      let c0 := Colour 0 0 0 in
      match scene_call r true (Some so) with
      | Err e => Some (Err e)
      | Ok (o, d, n) =>
          match d with
          | None => Some (Ok c0)
          | Some (Fin t) =>
              let ip := point r t in
              match shade_lights o ip n c0 lights with
              | Err e => Some (Err e)
              | Ok c =>
                  match reflectivity_of o with
                  | Err e => Some (Err e)
                  | Ok refl =>
                      if Reqb refl 0 || Nat.leb recursion_depth depth then Some (Ok (clamped c))
                      else
                        match n with
                        | None => Some (Err TypeError)
                        | Some nv =>
                            match mk_ray_default ip (reflected (direction r) nv) with
                            | Err e => Some (Err e)
                            | Ok rr =>
                                match compute_colour fuel' rr (S depth) o with
                                | None => None
                                | Some (Err e) => Some (Err e)
                                | Some (Ok rc) =>
                                    Some (Ok (clamped (cadd c (cscale rc refl))))
                                end
                            end
                        end
                  end
              end
          | Some _ => Some (Err ValueError)
          end
      end
  end.

(** The float stored in the result array, as its bit pattern. *)
Variable double_bits : R -> Z.

Definition store_colour (rr : render_result) (x y : Z) (c : colour) : res render_result :=
  rr1 <- setitem rr x y CRed (double_bits (red c)) ;;
  rr2 <- setitem rr1 x y CGreen (double_bits (green c)) ;;
  setitem rr2 x y CBlue (double_bits (blue c)).

(** The pixel loop of [Renderer.render]; [total] is the camera's
    [ray_count] and [i] the [enumerate] counter. *)
Fixpoint render_loop (fuel : nat) (total : Z) (i : Z) (pixels : list (Z * Z * ray))
    (rr : render_result) : option (res render_result) :=
  match pixels with
  | [] => Some (Ok rr)
  | (x, y, r) :: rest =>
      if Z.eqb (i mod 10000) 0 && Z.eqb total 0 then Some (Err ZeroDivisionError)
      else
        match compute_colour fuel r 0 None with
        | None => None
        | Some (Err e) => Some (Err (ValueErrorPixel x y e))
        | Some (Ok c) =>
            match store_colour rr x y c with
            | Err e => Some (Err e)
            | Ok rr' => render_loop fuel total (i + 1)%Z rest rr'
            end
        end
  end.

(** [Renderer.render] over the camera's pixels. *)
Definition render (fuel : nat) (w h : Z) (pixels : list (Z * Z * ray))
    : option (res render_result) :=
  render_loop fuel (Z.of_nat (length pixels)) 0 pixels (mk_render_result w h [CRed; CGreen; CBlue]).

End Renderer.

(** [Scene.intersection(self, ray, compute_normal=True)] called with
    optional extra positional argument: it takes at most two. *)
Definition scene_method {obj : Type} (obj_intersection : obj -> ray -> bool -> res isect)
    (objs : list obj) (r : ray) (cn : bool) (extra : option (option obj))
    : res (option obj * option xfloat * option vec) :=
  match extra with
  | None => scene_intersection obj obj_intersection objs r cn
  | Some _ => Err TypeError
  end.

(** ** More of vector, colour, primitive, camera *)

(** [Vector.cross]. *)
Definition cross (a b : vec) : vec :=
  Vec (vy a * vz b - vy b * vz a)
      (vz a * vx b - vz b * vx a)
      (vx a * vy b - vx b * vy a).

(** [Colour.__mul__] by a colour. *)
Definition cmul (a b : colour) : colour :=
  Colour (red a * red b) (green a * green b) (blue a * blue b).

(** [Colour.clamp(min_value, max_value)] (the setters store
    [max(0.0, value)]); its defaults are [0.0] and [0.0]. *)
Definition clamp (a : colour) (min_value max_value : R) : colour :=
  Colour (py_clamp (red a) min_value max_value)
         (py_clamp (green a) min_value max_value)
         (py_clamp (blue a) min_value max_value).



(** Python's [int(x)] on a finite float: truncation towards zero. *)
Definition py_int (x : R) : Z :=
  if Rle_dec 0 x then Int_part x else (- Int_part (- x))%Z.

(** One channel of [Colour.rgb]: [max(min(int(v * multiplier), 255), 0)]. *)
Definition rgb_channel (v multiplier : R) : Z :=
  Z.max (Z.min (py_int (v * multiplier)) 255) 0.

(** [Colour.rgb(multiplier)]: [(r << 16) + (g << 8) + b]. *)
Definition rgb (a : colour) (multiplier : R) : Z :=
  (Z.shiftl (rgb_channel (red a) multiplier) 16 +
   Z.shiftl (rgb_channel (green a) multiplier) 8 +
   rgb_channel (blue a) multiplier)%Z.

(** [p] lies in the box (closed bounds, Python comparisons). *)
Definition in_box (b : aabox) (p : vec) : bool :=
  xle (xmin b) (Fin (vx p)) && xle (Fin (vx p)) (xmax b) &&
  xle (ymin b) (Fin (vy p)) && xle (Fin (vy p)) (ymax b) &&
  xle (zmin b) (Fin (vz p)) && xle (Fin (vz p)) (zmax b).

(** No bound of the box is nan. *)
Definition box_not_nan (b : aabox) : Prop :=
  xmin b <> NaN /\ xmax b <> NaN /\ ymin b <> NaN /\
  ymax b <> NaN /\ zmin b <> NaN /\ zmax b <> NaN.

(** Box [a] lies within box [b]. *)
Definition box_within (a b : aabox) : bool :=
  xle (xmin b) (xmin a) && xle (xmax a) (xmax b) &&
  xle (ymin b) (ymin a) && xle (ymax a) (ymax b) &&
  xle (zmin b) (zmin a) && xle (zmax a) (zmax b).

(** [AxisAlignedBox.infinite()]. *)
Definition infinite_box : aabox :=
  AABox (xneg INFINITY) INFINITY (xneg INFINITY) INFINITY (xneg INFINITY) INFINITY.

(** [primitive.Plane]: the normal is normalised by the constructor. *)
Record plane : Type := MkPlane {
  plane_point : vec;
  plane_normal : vec;
  signed_distance : R
}.

(** [Plane(point, normal)]. *)
Definition mk_plane (p n : vec) : res plane :=
  nn <- normalized n ;; Ok (MkPlane p nn (vdot p nn)).

(** [Plane._intersection] (through [Primitive.intersection]); [tol] is
    [INTERSECTION_TOLERANCE]; a float division by [0.0] raises. *)
Definition plane_intersection (tol : R) (pl : plane) (r : ray) (compute_normal : bool)
    : res isect :=
  let proj := vdot (direction r) (plane_normal pl) in
  if Rltb (Rabs proj) tol then Ok (None, Some (plane_normal pl))
  else if Reqb proj 0 then Err ZeroDivisionError
  else
    let distance := (signed_distance pl - vdot (source r) (plane_normal pl)) / proj in
    if in_range r (Fin distance) then Ok (Some (Fin distance), Some (plane_normal pl))
    else Ok (None, Some (plane_normal pl)).

(** [Plane._bounding_box]. *)
Definition plane_bounding_box (pl : plane) : aabox := infinite_box.

(** Python's [range(start, stop)]. *)
Definition py_range (start stop : Z) : list Z :=
  map (fun i => (start + Z.of_nat i)%Z) (seq 0 (Z.to_nat (stop - start))).

(** [camera.coordinate_range(min_value, max_value, size)]. *)
Definition coordinate_range (min_value : Z) (max_value : option Z) (size : Z) : list Z :=
  py_range min_value (match max_value with None => size | Some m => (m + 1)%Z end).

(** [Camera.ray_count]. *)
Definition ray_count (image_width image_height : Z) (xmin : Z) (xmax : option Z)
    (ymin : Z) (ymax : option Z) : Z :=
  (Z.of_nat (length (coordinate_range xmin xmax image_width)) *
   Z.of_nat (length (coordinate_range ymin ymax image_height)))%Z.

(** [camera.Orthographic]. *)
Record orthographic : Type := Orthographic {
  cam_position : vec;
  cam_forward : vec;
  cam_up : vec;
  cam_width : R;
  cam_height : R;
  cam_right : vec
}.

(** [Orthographic(position, up, forward, width, height)]. *)
Definition mk_orthographic (position up forward : vec) (w h : R) : res orthographic :=
  f <- normalized forward ;;
  u <- normalized (vsub up (vscale (vdot up f) f)) ;;
  rt <- normalized (cross forward up) ;;
  Ok (Orthographic position f u w h rt).

(** A float division [a / b]: dividing by zero raises. *)
Definition py_div (a b : R) : res R :=
  if Reqb b 0 then Err ZeroDivisionError else Ok (a / b).

(** [v / 2.0]. *)
Definition vhalf (a : vec) : vec := Vec (vx a / 2) (vy a / 2) (vz a / 2).

Fixpoint map_res {A B} (f : A -> res B) (l : list A) : res (list B) :=
  match l with
  | [] => Ok []
  | x :: xs => y <- f x ;; ys <- map_res f xs ;; Ok (y :: ys)
  end.

(** The pixels of the two nested [for] loops: [y] outer, [x] inner. *)
Definition pixel_order (xs ys : list Z) : list (Z * Z) :=
  flat_map (fun y => map (fun x => (x, y)) xs) ys.

(** [Orthographic.rays], all its items at once: the generator computes the
    pixel size before its first item, and no later step raises unless a
    [Ray] constructor does. *)
Definition ortho_rays (cam : orthographic) (image_width image_height : Z)
    (xmin : Z) (xmax : option Z) (ymin : Z) (ymax : option Z)
    : res (list (Z * Z * ray)) :=
  pixel_width <- py_div (cam_width cam) (IZR image_width) ;;
  pixel_height <- py_div (cam_height cam) (IZR image_height) ;;
  let bottom_left :=
    vadd (vadd (vsub (vsub (cam_position cam) (vhalf (vscale (cam_width cam) (cam_right cam))))
                     (vhalf (vscale (cam_height cam) (cam_up cam))))
               (vhalf (vscale pixel_width (cam_right cam))))
         (vhalf (vscale pixel_height (cam_up cam))) in
  map_res (fun p : Z * Z =>
             let '(x, y) := p in
             r <- mk_ray_default
                    (vadd (vadd bottom_left (vscale (IZR x * pixel_width) (cam_right cam)))
                          (vscale (IZR y * pixel_height) (cam_up cam)))
                    (cam_forward cam) ;;
             Ok (x, y, r))
    (pixel_order (coordinate_range xmin xmax image_width)
                 (coordinate_range ymin ymax image_height)).

(** The tree invariant of [_compute_tree]: a node's box has no nan bound
    and holds the box of every solid below the node. *)
Section TreeBoxes.
Variable obj : Type.
Variable ob : obj -> res (option aabox).

Definition tree_box_ok (t : tree obj) : Prop :=
  exists b, tree_bounding_box obj ob t = Ok (Some b) /\ box_not_nan b /\
    forall o b', In o (leaves obj t) -> ob o = Ok (Some b') -> box_within b' b = true.
End TreeBoxes.

(** The array slot [self._data[self._index(key)]] that [__getitem__] and
    [__setitem__] address. *)
Definition result_slot (rr : render_result) (x y : Z) (c : component) : res nat :=
  i <- result_index rr x y c ;; py_index (length (data rr)) i.

(** ** Concrete inputs *)

(** [AxisAlignedBox(0, 1, 0, 1, 0, 1)]. *)
Definition box01 : aabox := AABox (Fin 0) (Fin 1) (Fin 0) (Fin 1) (Fin 0) (Fin 1).

(** [Ray(Vector(5, 5, 5), Vector(1, 0, 0))]: it passes beside [box01]. *)
Definition ray_beside : ray := Ray (Vec 5 5 5) (Vec 1 0 0) (Fin 0) INFINITY.

(** [Ray(Vector(-1, 0.5, -2), Vector(0.6, 0, 0.8))]: it enters [box01]
    through the face z = 0 and leaves it through the face x = 1. *)
Definition ray_oblique : ray := Ray (Vec (-1) (1/2) (-2)) (Vec (3/5) 0 (4/5)) (Fin 0) INFINITY.

(** [Intersection(Sphere(Vector(0, 0, 1), 1), Sphere(Vector(0, 0, 5), 1))]. *)
Definition sphere_near : solid := SSphere (Vec 0 0 1) 1 None None.
Definition sphere_far : solid := SSphere (Vec 0 0 5) 1 None None.
Definition lens : solid := SIntersection sphere_near sphere_far None None.

(** [Ray(Vector(0, 0, 0), Vector(0, 0, 1), min_distance=-10)]. *)
Definition ray_up_from_minus10 : ray := Ray (Vec 0 0 0) (Vec 0 0 1) (Fin (-10)) INFINITY.

(** [Ray(Vector(0, 0, 0), Vector(0, 0, 1), max_distance=2)]. *)
Definition ray_up_short : ray := Ray (Vec 0 0 0) (Vec 0 0 1) (Fin 0) (Fin 2).

(** A scene of two solids with the same geometry as [box01], as the
    solids 0 and 1. *)
Definition twin_intersection (o : nat) (r : ray) (cn : bool) : res isect :=
  aab_intersection box01 r cn.
Definition twin_bounding_box (o : nat) : res (option aabox) := Ok (Some box01).

(** The tree [_compute_tree] may build for the twin scene: one group whose
    set iterates solid 1 first. *)
Definition twin_group : tree nat :=
  Group (Some (combine box01 box01)) (Leaf 1%nat) (Leaf 0%nat).

(** [Ray(Vector(-1, 0.5, 0.5), Vector(1, 0, 0))]: it meets [box01] at
    distance 1. *)
Definition ray_x_through : ray := Ray (Vec (-1) (1/2) (1/2)) (Vec 1 0 0) (Fin 0) INFINITY.

(** [Material(BLACK, reflectivity=1.0)]: a perfect mirror. *)
Definition mirror : material := Material BLACK BLACK 1 (Colour 1 1 1) 10.

(** A scene of one mirror that every ray meets at distance 1, facing +z. *)
Definition mirror_scene (r : ray) (cn : bool) (extra : option (option unit))
    : res (option unit * option xfloat * option vec) :=
  Ok (Some tt, Some (Fin 1), Some (Vec 0 0 1)).
Definition mirror_material (o : unit) : option material := Some mirror.
Definition no_contribution (o : option unit) (p : vec) (n : option vec) (l : light)
    : res colour := Ok BLACK.

(** [Orthographic(Vector(0, 0, 0), Vector(0, 1, 0), Vector(0, 0, 1), 2, 2)]. *)
Definition ortho_cam : orthographic :=
  Orthographic (Vec 0 0 0) (Vec 0 0 1) (Vec 0 1 0) 2 2 (Vec (-1) 0 0).

(** ** Evaluation of concrete inputs *)

Lemma Rltb_t a b : a < b -> Rltb a b = true.
Proof. unfold Rltb; destruct (Rlt_dec a b); auto; contradiction. Qed.
Lemma Rltb_f a b : ~ a < b -> Rltb a b = false.
Proof. unfold Rltb; destruct (Rlt_dec a b); auto; contradiction. Qed.
Lemma Rleb_t a b : a <= b -> Rleb a b = true.
Proof. unfold Rleb; destruct (Rle_dec a b); auto; contradiction. Qed.
Lemma Rleb_f a b : ~ a <= b -> Rleb a b = false.
Proof. unfold Rleb; destruct (Rle_dec a b); auto; contradiction. Qed.
Lemma Reqb_t a b : a = b -> Reqb a b = true.
Proof. unfold Reqb; destruct (Req_EM_T a b); auto; contradiction. Qed.
Lemma Reqb_f a b : a <> b -> Reqb a b = false.
Proof. unfold Reqb; destruct (Req_EM_T a b); auto; contradiction. Qed.

Lemma sqrt_of_1 e : e = 1 -> sqrt e = 1.
Proof. intros ->; exact sqrt_1. Qed.

(** Decide the real comparisons of a closed goal by [lra]. *)
Ltac rcmp := repeat match goal with
  | |- context [Rltb ?a ?b] =>
      first [rewrite (Rltb_t a b) by lra | rewrite (Rltb_f a b) by lra]
  | |- context [Rleb ?a ?b] =>
      first [rewrite (Rleb_t a b) by lra | rewrite (Rleb_f a b) by lra]
  | |- context [Reqb ?a ?b] =>
      first [rewrite (Reqb_t a b) by lra | rewrite (Reqb_f a b) by lra]
  | |- context [sqrt ?e] => rewrite (sqrt_of_1 e) by lra
  end.

(** Unfold the program, leaving the real comparisons folded. *)
Ltac unfold_prog :=
  cbv beta iota zeta delta [
    aab_intersection aab_loop aab_plane aab_tests aab_intersection_all_axes
    aab_loop_all_axes in_range xlt xle xeqb xadd xsub xneg xmul xdiv xscale_inf
    vget box_min box_max INFINITY source direction min_distance max_distance
    vx vy vz xmin xmax ymin ymax zmin zmax
    bind vadd vsub vneg vscale vdot norm2 norm vdiv normalized mk_ray
    mk_ray_default point ray_neg odot sphere_distance sphere_intersection py_min
    or_inf inside_test csg_intersection inverse_intersection intersection
    fst snd option_map andb orb negb].

Ltac evr := repeat (unfold_prog; rcmp).

(** Close an equation between evaluated results. *)
Ltac feq := repeat match goal with
  | |- Ok _ = Ok _ => f_equal
  | |- Err _ = Err _ => f_equal
  | |- pair _ _ = pair _ _ => f_equal
  | |- Some _ = Some _ => f_equal
  | |- Fin _ = Fin _ => f_equal
  | |- Vec _ _ _ = Vec _ _ _ => f_equal
  | |- Ray _ _ _ _ = Ray _ _ _ _ => f_equal
  end; try reflexivity; try lra.

(** ** Primitive intersections *)

(** C1: the box [AxisAlignedBox(0, 1, 0, 1, 0, 1)] and the default ray
    from (5, 5, 5) along +x, which misses it: [intersection] does not
    report "no hit" ([None]) but the distance [INFINITY], which is not
    inside the ray's interval (0, INFINITY). *)
Theorem C1_box_miss_reports_infinity :
  mk_ray_default (Vec 5 5 5) (Vec 1 0 0) = Ok ray_beside /\
  intersection (SBox box01 None None) ray_beside true = Ok (Some INFINITY, None) /\
  in_range ray_beside INFINITY = false.
Proof.
  unfold ray_beside, box01, intersection.
  split; [|split]; evr; feq.
Qed.

(** C3: for the box [AxisAlignedBox(0, 1, 0, 1, 0, 1)] and the ray from
    (-1, 0.5, -2) along (0.6, 0, 0.8), the slab test of the code returns
    after the x pair alone, with the exit distance 10/3 through x = 1;
    the test over all three pairs finds the nearer entry at 5/2 through
    the face z = 0. *)
Theorem C3_box_returns_after_first_axis :
  mk_ray_default (Vec (-1) (1/2) (-2)) (Vec (3/5) 0 (4/5)) = Ok ray_oblique /\
  aab_intersection box01 ray_oblique true = Ok (Some (Fin (10/3)), Some (Vec 1 0 0)) /\
  aab_intersection_all_axes box01 ray_oblique = (Some (Fin (5/2)), Some (vneg (Vec 0 0 1))).
Proof.
  unfold ray_oblique, box01.
  split; [|split]; evr; feq.
Qed.

(** ** CSG *)

(** C4: the node [Intersection(Sphere((0,0,1), 1), Sphere((0,0,5), 1))]
    and the ray from the origin along +z with [min_distance=-10]: the
    ray's source is classified inside neither child, both children report
    forward hits (at 0 and at 4), and the node reports the hit at 0, not
    the farther one at 4: [(0.0 or INFINITY)] turns the hit at [0.0] into
    [INFINITY] when the two hits are ordered. *)
Theorem C4_intersection_zero_distance_is_falsy :
  intersection sphere_near ray_up_from_minus10 true = Ok (Some (Fin 0), Some (Vec 0 0 (-1))) /\
  intersection sphere_far ray_up_from_minus10 true = Ok (Some (Fin 4), Some (Vec 0 0 (-1))) /\
  (back <- ray_neg ray_up_from_minus10 ;;
   p1f <- intersection sphere_near ray_up_from_minus10 true ;;
   p1b <- intersection sphere_near back true ;;
   p2f <- intersection sphere_far ray_up_from_minus10 true ;;
   p2b <- intersection sphere_far back true ;;
   i1 <- inside_test ray_up_from_minus10 back p1f p1b ;;
   i2 <- inside_test ray_up_from_minus10 back p2f p2b ;;
   Ok (i1, i2)) = Ok (false, false) /\
  intersection lens ray_up_from_minus10 true = Ok (Some (Fin 0), Some (Vec 0 0 (-1))).
Proof.
  unfold lens, sphere_near, sphere_far, ray_up_from_minus10.
  split; [|split; [|split]]; evr; feq.
Qed.

(** C5: an [Inverse] answers its child's distance with the normal
    negated, and proxies [material] and [shader]; but [Inverse.__init__]
    never runs [Primitive.__init__], so [bounding_box()] finds no
    [_cached_bounding_box] attribute and raises, where the child (here a
    sphere) returns its box. *)
Theorem C5_inverse_bounding_box_raises :
  (forall o r cn,
     intersection (SInverse o) r cn =
     (p <- intersection o r cn ;; Ok (fst p, option_map vneg (snd p)))) /\
  (forall o, material_of (SInverse o) = material_of o) /\
  (forall o, shader_of (SInverse o) = shader_of o) /\
  (forall o, bounding_box (SInverse o) = Err AttributeError) /\
  (forall c radius m sh,
     bounding_box (SSphere c radius m sh) = Ok (Some (sphere_bounding_box c radius))).
Proof.
  repeat split; reflexivity.
Qed.

(** ** Scene queries *)

Ltac unfold_scene :=
  cbv beta iota zeta delta [is_obscured_body scene_intersection scan keep_nearest
    finish acc_init twin_intersection].

(** C6: [Scene.is_obscured] raises [TypeError] on every call (its
    [Vector] arguments are unhashable for [lru_cache]).  Its body, run
    directly, raises [TypeError] when nothing lies between the light and
    the point (an empty scene), and reports the point obscured when the
    nearest hit is exactly at the point (the face x = 0 of [box01], seen
    from (-1, 0.5, 0.5)), for every positive tolerance. *)
Theorem C6_shadow_query_raises_or_inverts (tol : R) (Htol : 0 < tol) :
  (forall (obj : Type) f tol' objs src dst,
     @is_obscured obj f tol' objs src dst = Err TypeError) /\
  is_obscured_body nat twin_intersection tol [] (Vec (-1) (1/2) (1/2)) (Vec 0 (1/2) (1/2))
    = Err TypeError /\
  scene_intersection nat twin_intersection [0%nat] ray_x_through false
    = Ok (Some 0%nat, Some (Fin 1), Some (vneg (Vec 1 0 0))) /\
  is_obscured_body nat twin_intersection tol [0%nat] (Vec (-1) (1/2) (1/2)) (Vec 0 (1/2) (1/2))
    = Ok true.
Proof.
  split; [reflexivity|].
  unfold ray_x_through.
  split; [|split]; unfold_scene; unfold box01; evr; feq.
Qed.

Lemma C6_witness :
  0 < 1/1000 /\
  is_obscured_body nat twin_intersection (1/1000) [0%nat] (Vec (-1) (1/2) (1/2)) (Vec 0 (1/2) (1/2))
    = Ok true.
Proof.
  assert (H : 0 < 1/1000) by lra.
  split; [exact H|].
  exact (proj2 (proj2 (proj2 (C6_shadow_query_raises_or_inverts (1/1000) H)))).
Defined.

(** ** Renderer *)

(** C10: [Scene.intersection] takes [(ray, compute_normal)] only; the
    renderer's shading call passes a third argument [source_object], so
    over a [Scene] the first pixel's shading raises [TypeError], which
    [render] wraps with that pixel's coordinates before storing anything. *)
Theorem C10_render_over_scene_fails_at_first_pixel :
  forall (obj : Type) (obj_intersection : obj -> ray -> bool -> res isect)
    (objs : list obj) obj_material lights ca cd cs recursion_depth double_bits
    fuel w h x y r rest,
  (forall r' cn, scene_method obj_intersection objs r' cn None =
                 scene_intersection obj obj_intersection objs r' cn) /\
  (forall fuel' r' depth so,
     compute_colour obj obj_material (scene_method obj_intersection objs) lights ca cd cs
       recursion_depth (S fuel') r' depth so = Some (Err TypeError)) /\
  render obj obj_material (scene_method obj_intersection objs) lights ca cd cs
    recursion_depth double_bits (S fuel) w h ((x, y, r) :: rest)
  = Some (Err (ValueErrorPixel x y TypeError)).
Proof.
  intros; split; [reflexivity|split; [reflexivity|]].
  unfold render; simpl. reflexivity.
Qed.

Section ColourRecursion.
Variable obj : Type.
Variable obj_material : obj -> option material.
Variable scene_call : ray -> bool -> option (option obj) -> res (option obj * option xfloat * option vec).
Variable lights : list light.
Variable ca cd cs : option obj -> vec -> option vec -> light -> res colour.
Variable recursion_depth : nat.

Local Abbreviation cc := (compute_colour obj obj_material scene_call lights ca cd cs recursion_depth).
Local Abbreviation shade := (shade_lights obj ca cd cs).
Local Abbreviation refl_of := (reflectivity_of obj obj_material).

(** C8: [_compute_colour] terminates: with more fuel than the distance
    from [depth] to [recursion_depth] it always answers.  It answers
    without recursing when the reflectivity is 0 or [depth] has reached
    [recursion_depth]; otherwise (a non-zero reflectivity, which the
    spec's materials keep in [0, 1], so a positive one, and [depth] below
    [recursion_depth]) its single recursive call is at [depth + 1].  With
    [recursion_depth = 0], a fully reflective material adds no reflected
    light: the colour is the clamped local shading. *)
Theorem C8_colour_recursion_bounded :
  (forall fuel r depth so,
     (recursion_depth - depth < fuel)%nat -> cc fuel r depth so <> None) /\
  (forall fuel r depth so o t n c refl,
     scene_call r true (Some so) = Ok (o, Some (Fin t), n) ->
     shade o (point r t) n (Colour 0 0 0) lights = Ok c ->
     refl_of o = Ok refl ->
     refl = 0 \/ (recursion_depth <= depth)%nat ->
     cc (S fuel) r depth so = Some (Ok (clamped c))) /\
  (forall fuel r depth so o t nv c refl rr,
     scene_call r true (Some so) = Ok (o, Some (Fin t), Some nv) ->
     shade o (point r t) (Some nv) (Colour 0 0 0) lights = Ok c ->
     refl_of o = Ok refl ->
     refl <> 0 -> (depth < recursion_depth)%nat ->
     mk_ray_default (point r t) (reflected (direction r) nv) = Ok rr ->
     cc (S fuel) r depth so =
     match cc fuel rr (S depth) o with
     | None => None
     | Some (Err e) => Some (Err e)
     | Some (Ok rc) => Some (Ok (clamped (cadd c (cscale rc refl))))
     end) /\
  (recursion_depth = 0%nat ->
   forall fuel r depth so o m t n c,
     scene_call r true (Some so) = Ok (Some o, Some (Fin t), n) ->
     shade (Some o) (point r t) n (Colour 0 0 0) lights = Ok c ->
     obj_material o = Some m -> reflectivity m = 1 ->
     cc (S fuel) r depth so = Some (Ok (clamped c))).
Proof.
  split; [|split; [|split]].
  - intro fuel; induction fuel as [|fuel IH]; intros r depth so Hf; [lia|].
    simpl.
    destruct (scene_call r true (Some so)) as [[[o d] n]|e]; [|discriminate].
    destruct d as [[t| | |]|]; try discriminate.
    destruct (shade o (point r t) n (Colour 0 0 0) lights) as [c|e]; [|discriminate].
    destruct (refl_of o) as [refl|e]; [|discriminate].
    destruct (Reqb refl 0 || Nat.leb recursion_depth depth) eqn:E; [discriminate|].
    destruct n as [nv|]; [|discriminate].
    destruct (mk_ray_default (point r t) (reflected (direction r) nv)) as [rr|e]; [|discriminate].
    apply orb_false_iff in E; destruct E as [_ E]; apply Nat.leb_gt in E.
    specialize (IH rr (S depth) o ltac:(lia)).
    destruct (cc fuel rr (S depth) o) as [[rc|e]|]; congruence.
  - intros fuel r depth so o t n c refl Hs Hl Hr Hc.
    simpl; rewrite Hs, Hl, Hr.
    destruct Hc as [-> | Hc].
    + rewrite (Reqb_t 0 0) by reflexivity; reflexivity.
    + apply Nat.leb_le in Hc; rewrite Hc, orb_true_r; reflexivity.
  - intros fuel r depth so o t nv c refl rr Hs Hl Hr Hne Hd Hm.
    simpl; rewrite Hs, Hl, Hr, (Reqb_f refl 0 Hne).
    apply Nat.leb_gt in Hd; rewrite Hd; simpl; rewrite Hm; reflexivity.
  - intros H0 fuel r depth so o m t n c Hs Hl Hm H1.
    simpl; rewrite Hs, Hl; unfold reflectivity_of; rewrite Hm, H1, H0.
    rewrite orb_true_r; reflexivity.
Qed.

End ColourRecursion.

Lemma C8_witness :
  compute_colour unit mirror_material mirror_scene [] no_contribution no_contribution
    no_contribution 0 1 (Ray (Vec 0 0 0) (Vec 0 0 1) (Fin 0) INFINITY) 0 None
  = Some (Ok (clamped (Colour 0 0 0))) /\
  compute_colour unit mirror_material mirror_scene [] no_contribution no_contribution
    no_contribution 2 3 (Ray (Vec 0 0 0) (Vec 0 0 1) (Fin 0) INFINITY) 0 None <> None.
Proof.
  split.
  - apply (proj2 (proj2 (proj2 (C8_colour_recursion_bounded unit mirror_material
             mirror_scene [] no_contribution no_contribution no_contribution 0%nat)))
             eq_refl 0%nat _ 0%nat None tt mirror 1 (Some (Vec 0 0 1))); reflexivity.
  - apply (proj1 (C8_colour_recursion_bounded unit mirror_material
             mirror_scene [] no_contribution no_contribution no_contribution 2%nat)).
    simpl; lia.
Defined.

(** ** Spheres *)

Lemma sqrt_of_sq e v : 0 <= v -> e = v * v -> sqrt e = v.
Proof. intros Hv ->; apply sqrt_square; exact Hv. Qed.

Lemma norm2_nonneg a : 0 <= norm2 a.
Proof. unfold norm2, vdot; nra. Qed.

Lemma norm_sq a : norm a * norm a = norm2 a.
Proof. unfold norm; apply sqrt_sqrt, norm2_nonneg. Qed.

Lemma normalized_ok a d : normalized a = Ok d ->
  norm a <> 0 /\ d = Vec (vx a / norm a) (vy a / norm a) (vz a / norm a).
Proof.
  unfold normalized, vdiv. destruct (Reqb (norm a) 0) eqn:E; [discriminate|].
  intros H; injection H as <-. split; [|reflexivity].
  unfold Reqb in E; destruct (Req_EM_T (norm a) 0); [discriminate|assumption].
Qed.

Lemma sphere_aimed_distance c s d radius lo hi :
  0 < radius -> radius < norm (vsub c s) -> normalized (vsub c s) = Ok d ->
  in_range (Ray s d lo hi) (Fin (norm (vsub c s) - radius)) = true ->
  sphere_distance c radius (Ray s d lo hi) = Some (norm (vsub c s) - radius).
Proof.
  intros Hr HL Hn Hin.
  apply normalized_ok in Hn as [HL0 ->].
  pose proof (norm_sq (vsub c s)) as HL2.
  set (a := vsub c s) in *. set (L := norm a) in *.
  unfold sphere_distance; cbv zeta; cbn [source direction].
  fold a.
  assert (Hp : vdot (Vec (vx a / L) (vy a / L) (vz a / L)) a = L).
  { unfold vdot; cbn [vx vy vz].
    transitivity (norm2 a / L); [unfold norm2, vdot; field; exact HL0|].
    rewrite <- HL2; field; exact HL0. }
  rewrite Hp.
  replace (L * L - norm2 a + radius * radius) with (radius * radius) by lra.
  rewrite (Rltb_f (radius * radius) 0) by nra.
  rewrite sqrt_square by lra.
  replace (L - radius) with (L - radius) in Hin by reflexivity.
  rewrite Hin.
  destruct (in_range _ (Fin (L + radius))); [|reflexivity].
  unfold py_min; rewrite Rltb_t by lra; reflexivity.
Qed.

Lemma sphere_aimed_normal c s d radius lo hi :
  0 < radius -> radius < norm (vsub c s) -> normalized (vsub c s) = Ok d ->
  in_range (Ray s d lo hi) (Fin (norm (vsub c s) - radius)) = true ->
  let r := Ray s d lo hi in
  let D := norm (vsub c s) - radius in
  sphere_intersection c radius r false = Ok (Some (Fin D), None) /\
  exists n k, sphere_intersection c radius r true = Ok (Some (Fin D), Some n) /\
    norm2 n = 1 /\ 0 < k /\ n = vscale k (vsub (point r D) c).
Proof.
  intros Hr HL Hn Hin r D.
  pose proof (sphere_aimed_distance c s d radius lo hi Hr HL Hn Hin) as Hd.
  unfold sphere_intersection. fold r in Hd. rewrite Hd.
  split; [reflexivity|].
  apply normalized_ok in Hn as [HL0 Hdv].
  pose proof (norm_sq (vsub c s)) as HL2.
  set (a := vsub c s) in *. set (L := norm a) in *.
  set (p := vsub (point r D) c).
  assert (Hpx : vx p = - vx a * radius / L /\ vy p = - vy a * radius / L /\ vz p = - vz a * radius / L).
  { unfold p, point, r, D, a; rewrite Hdv; cbn; fold a; fold L.
    unfold a; cbn; repeat split; field; exact HL0. }
  destruct Hpx as (Hx & Hy & Hz).
  assert (Hp2 : norm2 p = radius * radius).
  { unfold norm2, vdot; rewrite Hx, Hy, Hz.
    transitivity (radius * radius * norm2 a / (L * L)).
    - unfold norm2, vdot; field; exact HL0.
    - rewrite <- HL2; field; exact HL0. }
  assert (Hnp : norm p = radius).
  { unfold norm; rewrite Hp2; apply sqrt_square; lra. }
  unfold normalized, vdiv. change (L - radius) with D; fold p. rewrite Hnp, (Reqb_f radius 0) by lra. simpl.
  exists (Vec (vx p / radius) (vy p / radius) (vz p / radius)), (/ radius).
  split; [reflexivity|]. split; [|split].
  - unfold norm2, vdot; cbn [vx vy vz].
    transitivity (norm2 p / (radius * radius)).
    + unfold norm2, vdot; field; lra.
    + rewrite Hp2; field; lra.
  - apply Rinv_0_lt_compat; exact Hr.
  - unfold vscale; fold p; f_equal; field; lra.
Qed.

Lemma quadratic_roots p q t :
  t * t - 2 * p * t + q = 0 ->
  0 <= p * p - q /\ (t = p + sqrt (p * p - q) \/ t = p - sqrt (p * p - q)).
Proof.
  intros H.
  assert (Hd : 0 <= p * p - q) by (pose proof (Rle_0_sqr (t - p)) as H0; unfold Rsqr in H0; nra).
  split; [exact Hd|].
  pose proof (sqrt_sqrt _ Hd) as Hs.
  assert (Hz : (t - p - sqrt (p * p - q)) * (t - p + sqrt (p * p - q)) = 0) by nra.
  apply Rmult_integral in Hz as [Hz|Hz]; [left|right]; lra.
Qed.

Lemma quadratic_root_plus p q sg :
  0 <= p * p - q -> (sg = 1 \/ sg = -1) ->
  let t := p + sg * sqrt (p * p - q) in t * t - 2 * p * t + q = 0.
Proof.
  intros Hd Hsg t. pose proof (sqrt_sqrt _ Hd) as Hs. unfold t.
  destruct Hsg as [-> | ->]; nra.
Qed.

Lemma Rltb_spec a b : Rltb a b = true <-> a < b.
Proof. unfold Rltb; destruct (Rlt_dec a b); split; congruence || tauto. Qed.

Lemma sphere_distance_min_root c radius r :
  let diff := vsub c (source r) in
  let p := vdot (direction r) diff in
  let q := norm2 diff - radius * radius in
  match sphere_distance c radius r with
  | Some t =>
      t * t - 2 * p * t + q = 0 /\ in_range r (Fin t) = true /\
      (forall t', t' * t' - 2 * p * t' + q = 0 -> in_range r (Fin t') = true -> t <= t')
  | None => forall t', t' * t' - 2 * p * t' + q = 0 -> in_range r (Fin t') = false
  end.
Proof.
  intros diff p q.
  unfold sphere_distance; cbv zeta; fold diff; fold p.
  replace (p * p - norm2 diff + radius * radius) with (p * p - q) by (unfold q; ring).
  destruct (Rltb (p * p - q) 0) eqn:E.
  - apply Rltb_spec in E. intros t' Ht'.
    apply quadratic_roots in Ht' as [Hd _]; lra.
  - assert (Hd : 0 <= p * p - q).
    { destruct (Rle_lt_dec 0 (p * p - q)) as [H|H]; [exact H|].
      apply Rltb_spec in H; congruence. }
    pose proof (sqrt_pos (p * p - q)) as Hs0.
    assert (R1 : (p + sqrt (p * p - q)) * (p + sqrt (p * p - q)) - 2 * p * (p + sqrt (p * p - q)) + q = 0).
    { pose proof (quadratic_root_plus p q 1 Hd (or_introl eq_refl)) as H; simpl in H.
      rewrite Rmult_1_l in H; exact H. }
    assert (R2 : (p - sqrt (p * p - q)) * (p - sqrt (p * p - q)) - 2 * p * (p - sqrt (p * p - q)) + q = 0).
    { pose proof (quadratic_root_plus p q (-1) Hd (or_intror eq_refl)) as H; simpl in H.
      replace (p - sqrt (p * p - q)) with (p + -1 * sqrt (p * p - q)) by ring; exact H. }
    destruct (in_range r (Fin (p + sqrt (p * p - q)))) eqn:V1;
    destruct (in_range r (Fin (p - sqrt (p * p - q)))) eqn:V2.
    + unfold py_min.
      destruct (Rltb (p - sqrt (p * p - q)) (p + sqrt (p * p - q))) eqn:M.
      * split; [exact R2|split; [exact V2|]].
        intros t' Ht' _. apply quadratic_roots in Ht' as [_ [-> | ->]]; lra.
      * split; [exact R1|split; [exact V1|]].
        assert (sqrt (p * p - q) = 0).
        { destruct (Rle_lt_dec (sqrt (p * p - q)) 0) as [H|H]; [lra|].
          assert (Hlt : p - sqrt (p * p - q) < p + sqrt (p * p - q)) by lra.
          apply Rltb_spec in Hlt; congruence. }
        intros t' Ht' _. apply quadratic_roots in Ht' as [_ [-> | ->]]; lra.
    + split; [exact R1|split; [exact V1|]].
      intros t' Ht' Hin. apply quadratic_roots in Ht' as [_ [-> | ->]]; [lra|congruence].
    + split; [exact R2|split; [exact V2|]].
      intros t' Ht' Hin. apply quadratic_roots in Ht' as [_ [-> | ->]]; [congruence|lra].
    + intros t' Ht'. apply quadratic_roots in Ht' as [_ [-> | ->]]; assumption.
Qed.

(** C7 (counterexample): the sphere of centre (0, 0, 5) and radius 1 and
    the ray from the origin towards the centre with [max_distance=2]: the
    source is outside and the ray aims at the centre, but the distance
    ||source - centre|| - radius = 4 is beyond the ray's interval and no
    hit is reported. *)
Lemma C7_counterexample :
  normalized (vsub (Vec 0 0 5) (Vec 0 0 0)) = Ok (direction ray_up_short) /\
  norm (vsub (Vec 0 0 5) (Vec 0 0 0)) - 1 = 4 /\
  sphere_intersection (Vec 0 0 5) 1 ray_up_short true = Ok (None, None).
Proof.
  assert (H5 : norm (vsub (Vec 0 0 5) (Vec 0 0 0)) = 5).
  { unfold norm, norm2, vdot, vsub; cbn [vx vy vz]. apply sqrt_of_sq; lra. }
  split; [|split; [lra|]].
  - unfold normalized, vdiv; rewrite H5; unfold ray_up_short; evr; feq.
  - unfold ray_up_short; evr; feq.
Qed.

(** C7: for a sphere of positive radius and a ray whose source lies
    outside it, whose direction is the normalized vector towards the
    centre, and for which ||source - centre|| - radius lies inside the
    ray's interval, the intersection is at that distance; the normal is
    unit length and a positive multiple of (hit - centre).  For every ray,
    the distance reported is the smallest in-range root of the quadratic
    t^2 - 2 p t + (|centre - source|^2 - radius^2) (p the projection of
    centre - source on the direction), and no hit is reported exactly when
    no root is in range. *)
Theorem C7_sphere_aimed_hit_and_min_root (c s d : vec) (radius : R) (lo hi : xfloat)
    (Hr : 0 < radius) (Hout : radius < norm (vsub c s))
    (Haim : normalized (vsub c s) = Ok d)
    (Hin : in_range (Ray s d lo hi) (Fin (norm (vsub c s) - radius)) = true) :
  (let r := Ray s d lo hi in
   let D := norm (vsub c s) - radius in
   sphere_intersection c radius r false = Ok (Some (Fin D), None) /\
   exists n k, sphere_intersection c radius r true = Ok (Some (Fin D), Some n) /\
     norm2 n = 1 /\ 0 < k /\ n = vscale k (vsub (point r D) c)) /\
  (forall r : ray,
   let diff := vsub c (source r) in
   let p := vdot (direction r) diff in
   let q := norm2 diff - radius * radius in
   match sphere_distance c radius r with
   | Some t =>
       t * t - 2 * p * t + q = 0 /\ in_range r (Fin t) = true /\
       (forall t', t' * t' - 2 * p * t' + q = 0 -> in_range r (Fin t') = true -> t <= t')
   | None => forall t', t' * t' - 2 * p * t' + q = 0 -> in_range r (Fin t') = false
   end).
Proof.
  split.
  - exact (sphere_aimed_normal c s d radius lo hi Hr Hout Haim Hin).
  - intro r; exact (sphere_distance_min_root c radius r).
Qed.

Lemma C7_witness :
  0 < 1 /\ 1 < norm (vsub (Vec 0 0 5) (Vec 0 0 0)) /\
  normalized (vsub (Vec 0 0 5) (Vec 0 0 0)) = Ok (Vec 0 0 1) /\
  in_range (Ray (Vec 0 0 0) (Vec 0 0 1) (Fin 0) INFINITY)
    (Fin (norm (vsub (Vec 0 0 5) (Vec 0 0 0)) - 1)) = true /\
  sphere_intersection (Vec 0 0 5) 1 (Ray (Vec 0 0 0) (Vec 0 0 1) (Fin 0) INFINITY) false
    = Ok (Some (Fin (norm (vsub (Vec 0 0 5) (Vec 0 0 0)) - 1)), None).
Proof.
  assert (H5 : norm (vsub (Vec 0 0 5) (Vec 0 0 0)) = 5).
  { unfold norm, norm2, vdot, vsub; cbn [vx vy vz]. apply sqrt_of_sq; lra. }
  assert (H0 : 0 < 1) by lra.
  assert (H1 : 1 < norm (vsub (Vec 0 0 5) (Vec 0 0 0))) by (rewrite H5; lra).
  assert (H2 : normalized (vsub (Vec 0 0 5) (Vec 0 0 0)) = Ok (Vec 0 0 1)).
  { unfold normalized, vdiv; rewrite H5; evr; feq. }
  assert (H3 : in_range (Ray (Vec 0 0 0) (Vec 0 0 1) (Fin 0) INFINITY)
                 (Fin (norm (vsub (Vec 0 0 5) (Vec 0 0 0)) - 1)) = true).
  { rewrite H5; unfold in_range, xlt, INFINITY; cbn [min_distance max_distance]; rcmp; reflexivity. }
  split; [exact H0|split; [exact H1|split; [exact H2|split; [exact H3|]]]].
  exact (proj1 (proj1 (C7_sphere_aimed_hit_and_min_root (Vec 0 0 5) (Vec 0 0 0) (Vec 0 0 1)
           1 (Fin 0) INFINITY H0 H1 H2 H3))).
Defined.

(** ** Tree and linear-scan scene queries *)

Lemma Rltb_false_iff a b : Rltb a b = false <-> ~ a < b.
Proof. unfold Rltb; destruct (Rlt_dec a b); split; congruence || tauto. Qed.

Ltac rltb_cases :=
  repeat match goal with
  | |- context [Rltb ?a ?b] =>
      let E := fresh "E" in
      destruct (Rltb a b) eqn:E;
      [apply Rltb_spec in E | apply Rltb_false_iff in E]
  end.

Lemma xmin2_not_nan a b : not_nan a -> not_nan b -> not_nan (xmin2 a b).
Proof. unfold xmin2; destruct (xlt b a); auto. Qed.

Lemma xmin2_PInf_l a : not_nan a -> xmin2 PInf a = a.
Proof. intros H; destruct a; try reflexivity; congruence. Qed.

Lemma xmin2_comm a b : not_nan a -> not_nan b -> xmin2 a b = xmin2 b a.
Proof.
  intros Ha Hb; unfold xmin2, not_nan in *.
  destruct a, b; simpl; try congruence; rltb_cases; try reflexivity; try lra.
  f_equal; lra.
Qed.

Lemma xmin2_assoc a b c : not_nan a -> not_nan b -> not_nan c ->
  xmin2 (xmin2 a b) c = xmin2 a (xmin2 b c).
Proof.
  intros Ha Hb Hc; unfold xmin2, not_nan in *.
  destruct a, b, c; simpl; try congruence; rltb_cases; simpl; rltb_cases;
    try reflexivity; try lra.
Qed.


Section SceneAgreement.
Variable obj : Type.
Variable oi : obj -> ray -> bool -> res isect.
Variable ob : obj -> res (option aabox).

Lemma hit_key_not_nan (h : hit obj) : not_nan (hit_key obj h).
Proof. destruct h as [[o [[]|]] n]; unfold hit_key, not_nan; simpl; congruence. Qed.

Lemma min_key_not_nan hs : not_nan (min_key obj hs).
Proof.
  induction hs; simpl; [unfold not_nan; congruence|].
  apply xmin2_not_nan; auto using hit_key_not_nan.
Qed.

Lemma xmin2_PInf_r a : xmin2 a PInf = a.
Proof. destruct a; reflexivity. Qed.

Lemma fold_min_key hs m : not_nan m ->
  fold_right (fun h m => xmin2 (hit_key obj h) m) m hs = xmin2 (min_key obj hs) m.
Proof.
  intros Hm; induction hs as [|h hs IH]; simpl.
  - symmetry; apply xmin2_PInf_l; exact Hm.
  - rewrite IH, xmin2_assoc; auto using hit_key_not_nan, min_key_not_nan.
Qed.

Lemma min_key_app hs hs' :
  min_key obj (hs ++ hs') = xmin2 (min_key obj hs) (min_key obj hs').
Proof. unfold min_key at 1; rewrite fold_right_app; apply fold_min_key, min_key_not_nan. Qed.

Lemma min_key_perm hs hs' : Permutation hs hs' -> min_key obj hs = min_key obj hs'.
Proof.
  induction 1; simpl; auto.
  - rewrite IHPermutation; reflexivity.
  - rewrite <- !xmin2_assoc by auto using hit_key_not_nan, min_key_not_nan.
    rewrite (xmin2_comm (hit_key obj y)) by auto using hit_key_not_nan. reflexivity.
  - congruence.
Qed.

Lemma acc_ok_init : acc_ok obj [] (acc_init obj).
Proof. unfold acc_ok, acc_init, INFINITY; simpl; repeat split; intros; congruence. Qed.

Lemma acc_ok_perm hs hs' a : Permutation hs hs' -> acc_ok obj hs a -> acc_ok obj hs' a.
Proof.
  destruct a as [[o d] n]; intros P (H1 & H2 & H3); unfold acc_ok.
  rewrite <- (min_key_perm _ _ P); repeat split; auto.
  intros Hd; apply (Permutation_in _ P); auto.
Qed.

Lemma represents_single h : represents obj [h] h.
Proof.
  destruct h as [[o d] n]; unfold represents, min_key; simpl fold_right.
  rewrite xmin2_PInf_r; split; [reflexivity|].
  destruct d as [[x| | |]|]; unfold hit_key; simpl; intros H; try congruence; left; reflexivity.
Qed.

Lemma keep_represents hs hs' a h :
  acc_ok obj hs a -> represents obj hs' h -> acc_ok obj (hs ++ hs') (keep_nearest obj a h).
Proof.
  destruct a as [[ao ad] an], h as [[o d] n].
  intros (Had & Hai & Hain) (Hk & Hin).
  unfold acc_ok; rewrite min_key_app, <- Had, <- Hk.
  assert (Hkeep : xlt (hit_key obj (o, d, n)) ad = false ->
            let '(o0, d0, n0) := (ao, ad, an) in
            d0 = xmin2 ad (hit_key obj (o, d, n)) /\
            (d0 = PInf -> (o0, d0, n0) = acc_init obj) /\
            (d0 <> PInf -> In (o0, Some d0, n0) (hs ++ hs'))).
  { intros Hx; unfold xmin2; rewrite Hx; repeat split; auto.
    intros Hd; apply in_or_app; left; auto. }
  unfold keep_nearest; cbn [fst snd].
  destruct d as [x|].
  - destruct (xlt x ad) eqn:Hlt.
    + assert (HxN : x <> NaN) by (intros ->; discriminate).
      assert (HxP : x <> PInf) by (intros ->; destruct ad; discriminate).
      assert (Hkx : hit_key obj (o, Some x, n) = x)
        by (destruct x; unfold hit_key; simpl; congruence).
      rewrite Hkx in Hk |- *.
      unfold xmin2; rewrite Hlt; repeat split; auto; [congruence|].
      intros _; apply in_or_app; right; rewrite Hk; apply Hin; congruence.
    + apply Hkeep; destruct x; unfold hit_key; simpl; auto; destruct ad; reflexivity.
  - apply Hkeep; unfold hit_key; simpl; destruct ad; reflexivity.
Qed.

Lemma finish_represents hs a : acc_ok obj hs a -> represents obj hs (finish obj a).
Proof.
  destruct a as [[o d] n]; intros (Hd & Hi & Hin); unfold finish, represents.
  pose proof (min_key_not_nan hs) as HN.
  destruct (xeqb d INFINITY) eqn:E; unfold hit_key; simpl.
  - assert (d = PInf) by (destruct d; simpl in E; congruence).
    split; [congruence|]. intros H'; congruence.
  - assert (d <> PInf) by (intros ->; discriminate).
    split.
    + destruct d; congruence.
    + intros _; rewrite <- Hd; auto.
Qed.

Lemma scan_ok objs r cn a hs :
  acc_ok obj hs a ->
  (forall o, In o objs -> exists p, oi o r cn = Ok p) ->
  exists a', scan obj oi objs r cn a = Ok a' /\
             acc_ok obj (hs ++ map (solid_hit obj oi r cn) objs) a'.
Proof.
  revert a hs; induction objs as [|o objs IH]; intros a hs Ha Hok; simpl.
  - exists a; rewrite app_nil_r; auto.
  - destruct (Hok o (or_introl eq_refl)) as [p Hp]; rewrite Hp; simpl.
    assert (Hsh : solid_hit obj oi r cn o = (Some o, fst p, snd p))
      by (unfold solid_hit; rewrite Hp; reflexivity).
    destruct (IH (keep_nearest obj a (Some o, fst p, snd p)) (hs ++ [solid_hit obj oi r cn o])) as [a' [E Ha']].
    + rewrite Hsh; apply keep_represents; [exact Ha | apply represents_single].
    + intros o' Ho'; apply Hok; right; exact Ho'.
    + exists a'; split; [exact E|]. rewrite <- app_assoc in Ha'; exact Ha'.
Qed.

Lemma scan_err objs r cn a :
  (exists e, scan obj oi objs r cn a = Err e) <->
  (exists o e, In o objs /\ oi o r cn = Err e).
Proof.
  revert a; induction objs as [|o objs IH]; intros a; simpl.
  - split; [intros [e E]; discriminate | intros (o & e & [] & _)].
  - destruct (oi o r cn) as [p|e] eqn:Ho; simpl.
    + rewrite IH; split.
      * intros (o' & e & Hin & He); exists o', e; auto.
      * intros (o' & e & [<-|Hin] & He); [congruence|]; exists o', e; auto.
    + split; [intros _; exists o, e; auto | intros _; exists e; reflexivity].
Qed.

Lemma all_ok_or_err objs r cn :
  (forall o, In o objs -> exists p, oi o r cn = Ok p) \/
  (exists o e, In o objs /\ oi o r cn = Err e).
Proof.
  induction objs as [|o objs [IH|IH]].
  - left; intros o [].
  - destruct (oi o r cn) as [p|e] eqn:Ho.
    + left; intros o' [<-|Hin]; eauto.
    + right; exists o, e; simpl; auto.
  - right; destruct IH as (o' & e & Hin & He); exists o', e; simpl; auto.
Qed.

Lemma aab_intersection_hits b r cn :
  direction r <> Vec 0 0 0 ->
  exists d n, aab_intersection b r cn = Ok (Some d, n).
Proof.
  intros Hd; unfold aab_intersection, aab_tests; cbn [aab_loop vget].
  unfold Reqb.
  destruct (Req_EM_T (vx (direction r)) 0) as [Ex|Ex]; [|match goal with |- context [aab_plane b r ?i ?j ?k ?a ?p ?m] => destruct (aab_plane b r i j k a p m); eauto end].
  destruct (Req_EM_T (vy (direction r)) 0) as [Ey|Ey]; [|match goal with |- context [aab_plane b r ?i ?j ?k ?a ?p ?m] => destruct (aab_plane b r i j k a p m); eauto end].
  destruct (Req_EM_T (vz (direction r)) 0) as [Ez|Ez]; [|match goal with |- context [aab_plane b r ?i ?j ?k ?a ?p ?m] => destruct (aab_plane b r i j k a p m); eauto end].
  exfalso; apply Hd; destruct (direction r); simpl in *; subst; reflexivity.
Qed.

Lemma good_tree_box t : good_tree obj ob t -> exists b, tree_bounding_box obj ob t = Ok (Some b).
Proof.
  destruct t as [o|bb t1 t2]; simpl; [auto|].
  intros (Hbb & _ & _); destruct bb as [b|]; [eauto | congruence].
Qed.

Lemma tree_print_good t : good_tree obj ob t -> tree_print obj ob t = Ok tt.
Proof.
  induction t as [o|bb t1 IH1 t2 IH2]; simpl.
  - intros [b ->]; reflexivity.
  - intros (Hbb & H1 & H2); destruct bb; [|congruence].
    rewrite IH1 by exact H1; simpl; auto.
Qed.

Lemma tree_query_ok t r cn :
  good_tree obj ob t -> direction r <> Vec 0 0 0 ->
  (forall o, In o (leaves obj t) -> exists p, oi o r cn = Ok p) ->
  exists h, tree_query obj oi t r cn = Ok h /\
    represents obj (map (solid_hit obj oi r cn) (leaves obj t)) h.
Proof.
  intros G Hd; induction t as [o|bb t1 IH1 t2 IH2]; intros Hok.
  - destruct (Hok o (or_introl eq_refl)) as [p Hp].
    simpl; rewrite Hp; simpl; eexists; split; [reflexivity|].
    unfold solid_hit; rewrite Hp; apply represents_single.
  - destruct G as (Hbb & G1 & G2); simpl in Hok.
    destruct bb as [b|]; [|congruence].
    destruct (aab_intersection_hits b r false Hd) as (d & n & Hb).
    destruct (IH1 G1) as (h1 & E1 & R1); [intros; apply Hok, in_or_app; auto|].
    destruct (IH2 G2) as (h2 & E2 & R2); [intros; apply Hok, in_or_app; auto|].
    simpl; rewrite Hb; simpl; rewrite E1; simpl; rewrite E2; simpl.
    eexists; split; [reflexivity|].
    apply finish_represents; rewrite map_app.
    apply keep_represents; [|exact R2].
    change (map (solid_hit obj oi r cn) (leaves obj t1))
      with ([] ++ map (solid_hit obj oi r cn) (leaves obj t1)).
    apply keep_represents; [apply acc_ok_init | exact R1].
Qed.

Lemma tree_query_group bb t1 t2 r cn :
  good_tree obj ob (Group bb t1 t2) -> direction r <> Vec 0 0 0 ->
  (forall o, In o (leaves obj (Group bb t1 t2)) -> exists p, oi o r cn = Ok p) ->
  exists a, tree_query obj oi (Group bb t1 t2) r cn = Ok (finish obj a) /\
    acc_ok obj (map (solid_hit obj oi r cn) (leaves obj (Group bb t1 t2))) a.
Proof.
  intros G Hd Hok; destruct G as (Hbb & G1 & G2); simpl in Hok.
  destruct bb as [b|]; [|congruence].
  destruct (aab_intersection_hits b r false Hd) as (d & n & Hb).
  destruct (tree_query_ok t1 r cn G1 Hd) as (h1 & E1 & R1);
    [intros; apply Hok, in_or_app; auto|].
  destruct (tree_query_ok t2 r cn G2 Hd) as (h2 & E2 & R2);
    [intros; apply Hok, in_or_app; auto|].
  simpl; rewrite Hb; simpl; rewrite E1; simpl; rewrite E2; simpl.
  eexists; split; [reflexivity|].
  rewrite map_app; apply keep_represents; [|exact R2].
  change (map (solid_hit obj oi r cn) (leaves obj t1))
    with ([] ++ map (solid_hit obj oi r cn) (leaves obj t1)).
  apply keep_represents; [apply acc_ok_init | exact R1].
Qed.

Lemma tree_query_err t r cn :
  good_tree obj ob t -> direction r <> Vec 0 0 0 ->
  (exists o e, In o (leaves obj t) /\ oi o r cn = Err e) ->
  exists e, tree_query obj oi t r cn = Err e.
Proof.
  intros G Hd; induction t as [o|bb t1 IH1 t2 IH2]; intros (o' & e & Hin & He).
  - destruct Hin as [<-|[]]; simpl; rewrite He; eexists; reflexivity.
  - destruct G as (Hbb & G1 & G2); simpl in Hin.
    destruct bb as [b|]; [|congruence].
    destruct (aab_intersection_hits b r false Hd) as (d & n & Hb).
    simpl; rewrite Hb; simpl.
    apply in_app_or in Hin; destruct Hin as [Hin|Hin].
    + destruct (IH1 G1) as [e1 E1]; [eauto|]; rewrite E1; eexists; reflexivity.
    + destruct (tree_query obj oi t1 r cn) as [h1|e1]; simpl; [|eexists; reflexivity].
      destruct (IH2 G2) as [e2 E2]; [eauto|]; rewrite E2; eexists; reflexivity.
Qed.

Lemma py_min_from_ok (key : tree obj -> res xfloat) best kb l :
  (forall x, In x l -> exists k, key x = Ok k) ->
  exists m, py_min_from obj key best kb l = Ok m.
Proof.
  revert best kb; induction l as [|x l IH]; intros best kb Hk; simpl; [eauto|].
  destruct (Hk x (or_introl eq_refl)) as [k E]; rewrite E; simpl.
  destruct (xlt k kb); apply IH; intros; apply Hk; right; auto.
Qed.

Lemma py_min_key_ok (key : tree obj -> res xfloat) l :
  l <> [] -> (forall x, In x l -> exists k, key x = Ok k) ->
  exists m, py_min_key obj key l = Ok m.
Proof.
  destruct l as [|x l]; intros Hne Hk; [congruence|]; simpl.
  destruct (Hk x (or_introl eq_refl)) as [k E]; rewrite E; simpl.
  apply py_min_from_ok; intros; apply Hk; right; auto.
Qed.

Lemma combined_volume_ok b t :
  good_tree obj ob t -> exists v, combined_volume obj ob (Some b) t = Ok v.
Proof.
  intros G; destruct (good_tree_box t G) as [b2 E]; unfold combined_volume.
  rewrite E; simpl; eauto.
Qed.

Lemma make_group_good t best swap :
  good_tree obj ob t -> good_tree obj ob best ->
  exists g, make_group obj ob t best swap = Ok g /\ good_tree obj ob g /\
    Permutation (leaves obj t ++ leaves obj best) (leaves obj g) /\
    exists bb t1 t2, g = Group bb t1 t2.
Proof.
  intros Gt Gb; destruct (good_tree_box t Gt) as [b1 E1];
    destruct (good_tree_box best Gb) as [b2 E2].
  unfold make_group; rewrite E1; simpl; rewrite E2; simpl.
  destruct swap; eexists; (split; [reflexivity|]); simpl;
    (split; [split; [congruence | auto]|]); (split; [|eauto]).
  - apply Permutation_app_comm.
  - reflexivity.
Qed.

Lemma tree_loop_ok S out :
  tree_loop obj ob S out -> Forall (good_tree obj ob) S ->
  exists t, out = Ok t /\ good_tree obj ob t /\
    Permutation (flat_map (leaves obj) S) (leaves obj t) /\
    ((exists x, S = [x] /\ t = x) \/ exists bb t1 t2, t = Group bb t1 t2).
Proof.
  induction 1 as [t|S t rest b1 best rest' swap g S' out P Hne Eb Em Pr Eg P' _ IH
                  |S t rest e P Hne Eb|S t rest b1 e P Hne Eb Em
                  |S t rest b1 best rest' swap e P Hne Eb Em Pr Eg]; intros HS.
  - exists t; repeat split; [inversion HS; auto| simpl; rewrite app_nil_r; reflexivity|eauto].
  - apply (Permutation_Forall P) in HS; inversion HS as [|? ? Gt Grest]; subst.
    apply (Permutation_Forall Pr) in Grest as Grest'; inversion Grest' as [|? ? Gb Gr']; subst.
    destruct (make_group_good t best swap Gt Gb) as (g' & Eg' & Gg & Pg & Hg).
    rewrite Eg in Eg'; injection Eg' as <-.
    destruct IH as (tf & -> & Gf & Pf & Hf).
    { apply (Permutation_Forall (Permutation_sym P')); constructor; auto. }
    exists tf; split; [reflexivity|]; split; [exact Gf|]; split.
    + rewrite P, <- Pf, P'; simpl.
      rewrite Pr; simpl; rewrite <- Pg, app_assoc; reflexivity.
    + right; destruct Hf as [(x & -> & ->)|Hf]; [|exact Hf].
      apply Permutation_length_1_inv in P'; injection P' as -> _; exact Hg.
  - apply (Permutation_Forall P) in HS; inversion HS as [|? ? Gt Grest]; subst.
    destruct (good_tree_box t Gt) as [b E]; congruence.
  - apply (Permutation_Forall P) in HS; inversion HS as [|? ? Gt Grest]; subst.
    destruct (good_tree_box t Gt) as [b E]; rewrite Eb in E; injection E as ->.
    destruct (py_min_key_ok (combined_volume obj ob (Some b)) rest Hne) as [m Em'].
    + intros x Hx; apply combined_volume_ok; rewrite Forall_forall in Grest; auto.
    + congruence.
  - apply (Permutation_Forall P) in HS; inversion HS as [|? ? Gt Grest]; subst.
    apply (Permutation_Forall Pr) in Grest as Grest'; inversion Grest' as [|? ? Gb Gr']; subst.
    destruct (make_group_good t best swap Gt Gb) as (g' & Eg' & _); congruence.
Qed.

Lemma flat_map_leaves objs : flat_map (leaves obj) (map (@Leaf obj) objs) = objs.
Proof. induction objs; simpl; congruence. Qed.

Lemma in_solid_hits objs r cn o d n :
  (forall o, In o objs -> exists p, oi o r cn = Ok p) ->
  In (o, Some d, n) (map (solid_hit obj oi r cn) objs) ->
  exists x p, o = Some x /\ In x objs /\ oi x r cn = Ok p /\ fst p = Some d /\ snd p = n.
Proof.
  intros Hok Hin; apply in_map_iff in Hin; destruct Hin as (x & Ex & Hx).
  destruct (Hok x Hx) as [p Hp]; unfold solid_hit in Ex; rewrite Hp in Ex.
  injection Ex as <- E1 E2; exists x, p; auto.
Qed.

(** C2 (amended): for a scene of at least two solids, each with a bounding
    box, and a ray whose direction is not the zero vector (every ray built
    by the [Ray] constructor), every run of [Scene.intersection_old] (the
    bounding-volume tree, whatever the set orders) raises exactly when
    [Scene.intersection] (the linear scan) raises.  When both answer, they
    report the same distance, so both report no hit for the same rays, and
    then both answer (None, None, None).  They report the same object and
    normal whenever at most one solid is hit at the nearest distance; on a
    tie the two loops may keep different solids. *)
Theorem C2_tree_query_agrees_with_scan (objs : list obj) (r : ray) (cn : bool)
    (out : res (hit obj))
    (Hlen : (2 <= length objs)%nat)
    (Hbb : forall o, In o objs -> exists b, ob o = Ok (Some b))
    (Hdir : direction r <> Vec 0 0 0)
    (Hio : intersection_old obj oi ob objs r cn out) :
  ((exists e, out = Err e) <-> (exists e, scene_intersection obj oi objs r cn = Err e)) /\
  forall h1 h2, out = Ok h1 -> scene_intersection obj oi objs r cn = Ok h2 ->
    snd (fst h1) = snd (fst h2) /\
    (snd (fst h2) = None -> h1 = (None, None, None) /\ h2 = (None, None, None)) /\
    (forall d, snd (fst h2) = Some d ->
       (forall o1 o2 p1 p2, In o1 objs -> In o2 objs ->
          oi o1 r cn = Ok p1 -> oi o2 r cn = Ok p2 ->
          fst p1 = Some d -> fst p2 = Some d -> o1 = o2) ->
       h1 = h2).
Proof.
  destruct Hio as [Hs|rt _ Htl]; [lia|].
  destruct (tree_loop_ok _ _ Htl) as (t & -> & Gt & Pt & Hg).
  { apply Forall_forall; intros x Hx; apply in_map_iff in Hx.
    destruct Hx as (o & <- & Ho); simpl; auto. }
  rewrite flat_map_leaves in Pt.
  destruct Hg as [(x & Hx & _)|(bb & t1 & t2 & ->)].
  { apply (f_equal (@length _)) in Hx; rewrite length_map in Hx; simpl in Hx; lia. }
  cbn [bind]; rewrite (tree_print_good _ Gt); cbn [bind].
  unfold scene_intersection.
  destruct (all_ok_or_err objs r cn) as [Hok|Herr].
  - destruct (tree_query_group bb t1 t2 r cn Gt Hdir) as (a1 & E1 & A1).
    { intros o Ho; apply Hok, (Permutation_in _ (Permutation_sym Pt)), Ho. }
    destruct (scan_ok objs r cn (acc_init obj) [] acc_ok_init Hok) as (a2 & E2 & A2).
    rewrite E1, E2; simpl.
    apply (acc_ok_perm _ (map (solid_hit obj oi r cn) objs)) in A1;
      [|apply Permutation_map, Permutation_sym, Pt].
    simpl in A2.
    split; [split; intros [e E]; discriminate|].
    intros h1 h2 H1 H2; injection H1 as <-; injection H2 as <-.
    destruct a1 as [[o1 d1] n1], a2 as [[o2 d2] n2].
    destruct A1 as (D1 & I1 & In1), A2 as (D2 & I2 & In2).
    rewrite <- D1 in D2; subst d2.
    destruct (xeqb d1 INFINITY) eqn:Einf.
    + assert (d1 = PInf) by (destruct d1; simpl in Einf; congruence).
      rewrite (I1 H), (I2 H); simpl; repeat split; auto.
    + assert (Hne : d1 <> PInf) by (intros ->; discriminate).
      unfold finish; rewrite Einf; simpl.
      split; [reflexivity|]; split; [discriminate|].
      intros d Ed Huniq; injection Ed as <-.
      destruct (in_solid_hits _ _ _ _ _ _ Hok (In1 Hne)) as (x1 & p1 & -> & X1 & P1 & F1 & S1).
      destruct (in_solid_hits _ _ _ _ _ _ Hok (In2 Hne)) as (x2 & p2 & -> & X2 & P2 & F2 & S2).
      assert (x1 = x2) as <- by (apply (Huniq x1 x2 p1 p2); auto).
      congruence.
  - assert (Et : exists e, tree_query obj oi (Group bb t1 t2) r cn = Err e).
    { apply tree_query_err; auto.
      destruct Herr as (o & e & Ho & He); exists o, e; split; auto.
      apply (Permutation_in _ Pt), Ho. }
    destruct Et as [e Et]; rewrite Et.
    apply (scan_err objs r cn (acc_init obj)) in Herr; destruct Herr as [e' Es].
    rewrite Es; simpl.
    split; [split; intros _; eexists; reflexivity|].
    intros h1 h2 H1; discriminate.
Qed.
End SceneAgreement.

Lemma twin_tree_loop :
  tree_loop nat twin_bounding_box (map Leaf [0%nat; 1%nat]) (Ok twin_group).
Proof.
  apply (TL_step nat twin_bounding_box _ (Leaf 0%nat) [Leaf 1%nat] (Some box01)
           (Leaf 1%nat) [] true twin_group [twin_group]).
  - apply Permutation_refl.
  - discriminate.
  - reflexivity.
  - reflexivity.
  - apply Permutation_refl.
  - reflexivity.
  - apply Permutation_refl.
  - apply TL_one.
Qed.

Lemma twin_tree_query :
  intersection_old nat twin_intersection twin_bounding_box [0%nat; 1%nat] ray_x_through true
    (Ok (Some 1%nat, Some (Fin 1), Some (vneg (Vec 1 0 0)))).
Proof.
  assert (E : (t <- Ok twin_group ;; _ <- tree_print nat twin_bounding_box t ;;
               tree_query nat twin_intersection t ray_x_through true)
              = Ok (Some 1%nat, Some (Fin 1), Some (vneg (Vec 1 0 0)))).
  { unfold twin_group, ray_x_through.
    cbv beta iota zeta delta [tree_print tree_query twin_bounding_box combine xmin2 xmax2
      keep_nearest finish acc_init twin_intersection box01].
    evr; feq. }
  rewrite <- E; apply IO_tree; [simpl; lia | exact twin_tree_loop].
Qed.

(** C2 counterexample: two solids with the same geometry as [box01], hit
    by [ray_x_through] at distance 1.  The scan keeps solid 0 (the first
    in its set order); the tree whose group iterates solid 1 first answers
    solid 1. *)
Lemma C2_counterexample :
  intersection_old nat twin_intersection twin_bounding_box [0%nat; 1%nat] ray_x_through true
    (Ok (Some 1%nat, Some (Fin 1), Some (vneg (Vec 1 0 0)))) /\
  scene_intersection nat twin_intersection [0%nat; 1%nat] ray_x_through true
    = Ok (Some 0%nat, Some (Fin 1), Some (vneg (Vec 1 0 0))).
Proof.
  split; [exact twin_tree_query|].
  unfold ray_x_through;
  cbv beta iota zeta delta [scene_intersection scan keep_nearest finish acc_init
    twin_intersection box01].
  evr; feq.
Qed.

Lemma C2_witness :
  (2 <= length [0%nat; 1%nat])%nat /\
  (forall o, In o [0%nat; 1%nat] -> exists b, twin_bounding_box o = Ok (Some b)) /\
  direction ray_x_through <> Vec 0 0 0 /\
  ((exists e, Ok (Some 1%nat, Some (Fin 1), Some (vneg (Vec 1 0 0))) = Err e) <->
   (exists e, scene_intersection nat twin_intersection [0%nat; 1%nat] ray_x_through true
              = Err e)).
Proof.
  assert (Hl : (2 <= length [0%nat; 1%nat])%nat) by (simpl; lia).
  assert (Hb : forall o, In o [0%nat; 1%nat] -> exists b, twin_bounding_box o = Ok (Some b))
    by (intros o _; exists box01; reflexivity).
  assert (Hd : direction ray_x_through <> Vec 0 0 0)
    by (simpl; intros H; injection H; lra).
  split; [exact Hl|]; split; [exact Hb|]; split; [exact Hd|].
  exact (proj1 (C2_tree_query_agrees_with_scan nat twin_intersection twin_bounding_box
                  _ _ _ _ Hl Hb Hd twin_tree_query)).
Defined.

(** ** Render results *)

Local Open Scope Z_scope.

Lemma component_eqb_eq a b : component_eqb a b = true <-> a = b.
Proof. destruct a, b; cbv; split; congruence. Qed.

Lemma dict_set_new d k v :
  ~ In k (map fst d) -> dict_set d k v = d ++ [(k, v)].
Proof.
  induction d as [|[k' v'] d IH]; intros Hn; [reflexivity|].
  simpl in *. destruct (component_eqb k k') eqn:E.
  - apply component_eqb_eq in E; subst; tauto.
  - rewrite IH by tauto; reflexivity.
Qed.

Lemma enumerate_into_nodup d i cs :
  NoDup cs -> (forall c, In c cs -> ~ In c (map fst d)) ->
  enumerate_into d i cs = d ++ List.combine cs (seq i (length cs)).
Proof.
  revert d i; induction cs as [|c cs IH]; intros d i Hnd Hd; simpl.
  - rewrite app_nil_r; reflexivity.
  - inversion Hnd as [|? ? Hc Hnd']; subst.
    rewrite dict_set_new by (apply Hd; left; reflexivity).
    rewrite IH; [rewrite <- app_assoc; reflexivity|exact Hnd'|].
    intros c' Hc'. rewrite map_app; simpl. intros Hin.
    apply in_app_or in Hin as [Hin|[Heq|[]]].
    + apply (Hd c'); [right; exact Hc'|exact Hin].
    + subst; contradiction.
Qed.

Lemma component_index_of_nodup cs :
  NoDup cs -> component_index_of cs = List.combine cs (seq 0 (length cs)).
Proof.
  intros H; unfold component_index_of; rewrite enumerate_into_nodup; auto.
Qed.

Lemma length_combine_seq {A} (cs : list A) i : length (List.combine cs (seq i (length cs))) = length cs.
Proof. rewrite length_combine, length_seq; lia. Qed.

Lemma sort_combine_seq cs i :
  sort_by_index (List.combine cs (seq i (length cs))) = List.combine cs (seq i (length cs)).
Proof.
  revert i; induction cs as [|c cs IH]; intros i; [reflexivity|].
  simpl. rewrite IH. destruct cs as [|c' cs']; simpl.
  - reflexivity.
  - replace (Nat.ltb i (S i)) with true by (symmetry; apply Nat.ltb_lt; lia); reflexivity.
Qed.

Lemma map_value_combine cs i :
  map (fun p => component_value (fst p)) (List.combine cs (seq i (length cs))) = map component_value cs.
Proof. revert i; induction cs; intros; simpl; [reflexivity|f_equal; auto]. Qed.

Lemma component_of_value_inv c : component_of_value (component_value c) = Ok c.
Proof. destruct c; reflexivity. Qed.

Lemma read_components_app cs rest :
  read_components (length cs) (map component_value cs ++ rest) = Ok cs.
Proof.
  induction cs as [|c cs IH]; [reflexivity|].
  simpl; rewrite component_of_value_inv; simpl; rewrite IH; reflexivity.
Qed.

Lemma le_bytes_length n v : length (le_bytes n v) = n.
Proof. revert v; induction n; intros; simpl; auto. Qed.

Lemma le_value_bytes n v : 0 <= v < 2 ^ (8 * Z.of_nat n) -> le_value (le_bytes n v) = v.
Proof.
  revert v; induction n as [|n IH]; intros v Hv.
  - change (2 ^ (8 * Z.of_nat 0)) with 1 in Hv; simpl; lia.
  - cbn [le_bytes le_value].
    rewrite IH.
    + pose proof (Z.div_mod v 256 ltac:(lia)); lia.
    + split; [apply Z.div_pos; lia|].
      apply Z.div_lt_upper_bound; [lia|].
      replace (8 * Z.of_nat (S n)) with (8 + 8 * Z.of_nat n) in Hv by lia.
      rewrite Z.pow_add_r in Hv by lia. lia.
Qed.

Lemma read_doubles_app ds rest :
  Forall (fun v => 0 <= v < 2 ^ 64) ds ->
  read_doubles (length ds) (flat_map (le_bytes 8) ds ++ rest) = Ok ds.
Proof.
  induction ds as [|v ds IH]; intros H; [reflexivity|].
  inversion H as [|? ? Hv Hds]; subst.
  cbn [length read_doubles flat_map].
  rewrite <- app_assoc.
  set (tl := flat_map (le_bytes 8) ds ++ rest).
  rewrite length_app, le_bytes_length.
  replace (Nat.ltb (8 + length tl) 8) with false by (symmetry; apply Nat.ltb_ge; lia).
  rewrite skipn_app, le_bytes_length, Nat.sub_diag, skipn_all2 by (rewrite le_bytes_length; lia).
  rewrite app_nil_l; change (skipn 0 tl) with tl.
  unfold tl; rewrite IH by exact Hds. cbn [bind].
  rewrite firstn_app, le_bytes_length, Nat.sub_diag, firstn_all2 by (rewrite le_bytes_length; lia).
  rewrite firstn_O, app_nil_r, le_value_bytes by (simpl; lia). reflexivity.
Qed.

Lemma nodup_components_le_5 (cs : list component) : NoDup cs -> (length cs <= 5)%nat.
Proof.
  intros H.
  change 5%nat with (length [CRed; CGreen; CBlue; CAlpha; CDistance]).
  apply NoDup_incl_length; [exact H|].
  intros c _; destruct c; simpl; tauto.
Qed.

Lemma unpack_pack_i32 a : 0 <= a < 2 ^ 31 -> unpack_i32 (le_bytes 4 (a mod 2 ^ 32)) = a.
Proof.
  intros Ha. rewrite Z.mod_small by lia.
  unfold unpack_i32. rewrite le_value_bytes by (simpl; lia).
  replace (2 ^ 31 <=? a) with false by (symmetry; apply Z.leb_gt; lia). reflexivity.
Qed.

Lemma split_4_4 (ba bb bc : list Z) :
  length ba = 4%nat -> length bb = 4%nat ->
  firstn 4 (ba ++ bb ++ bc) = ba /\ firstn 4 (skipn 4 (ba ++ bb ++ bc)) = bb /\
  skipn 8 (ba ++ bb ++ bc) = bc.
Proof.
  intros La Lb.
  destruct ba as [|x0 [|x1 [|x2 [|x3 [|]]]]]; try discriminate.
  destruct bb as [|y0 [|y1 [|y2 [|y3 [|]]]]]; try discriminate.
  simpl; auto.
Qed.

Lemma pack_3i_roundtrip a b c :
  0 <= a < 2 ^ 31 -> 0 <= b < 2 ^ 31 -> 0 <= c < 2 ^ 31 ->
  exists hb, pack_3i a b c = Ok hb /\ length hb = 12%nat /\ unpack_3i hb = Ok (a, b, c).
Proof.
  intros Ha Hb Hc.
  assert (Hok : forall v, 0 <= v < 2 ^ 31 -> int32_ok v = true).
  { intros v Hv; unfold int32_ok; apply andb_true_intro; split; [apply Z.leb_le|apply Z.ltb_lt]; lia. }
  unfold pack_3i; rewrite (Hok a Ha), (Hok b Hb), (Hok c Hc); simpl andb.
  eexists; split; [reflexivity|].
  rewrite !length_app, !le_bytes_length; split; [reflexivity|].
  unfold unpack_3i. rewrite !length_app, !le_bytes_length; simpl Nat.eqb; cbv iota.
  destruct (split_4_4 (le_bytes 4 (a mod 2 ^ 32)) (le_bytes 4 (b mod 2 ^ 32))
              (le_bytes 4 (c mod 2 ^ 32)) (le_bytes_length _ _) (le_bytes_length _ _))
    as (E1 & E2 & E3).
  rewrite E1, E2, E3, !unpack_pack_i32 by assumption. reflexivity.
Qed.

Lemma length_list_set {A} (l : list A) i v : length (list_set l i v) = length l.
Proof. revert i; induction l; intros [|i]; simpl; auto. Qed.

Lemma Forall_list_set {A} (P : A -> Prop) l i v :
  Forall P l -> P v -> Forall P (list_set l i v).
Proof.
  revert i; induction l as [|x l IH]; intros [|i] Hl Hv; simpl; auto;
  inversion Hl; subst; constructor; auto.
Qed.

Lemma mk_render_result_well_formed w h cs :
  NoDup cs -> result_well_formed (mk_render_result w h cs) cs.
Proof.
  intros Hnd; unfold result_well_formed, mk_render_result; cbn.
  split; [exact Hnd|split; [reflexivity|split; [reflexivity|split]]].
  - apply repeat_length.
  - apply Forall_forall; intros v Hv; apply repeat_spec in Hv; subst; lia.
Qed.

Lemma setitem_well_formed rr cs x y c v rr' :
  result_well_formed rr cs -> 0 <= v < 2 ^ 64 -> setitem rr x y c v = Ok rr' ->
  result_well_formed rr' cs.
Proof.
  intros (Hnd & Hci & Hrs & Hlen & Hd) Hv Hs.
  unfold setitem in Hs.
  destruct (result_index rr x y c) as [i|e]; [|discriminate]; cbn [bind] in Hs.
  destruct (py_index (length (data rr)) i) as [k|e]; [|discriminate]; cbn [bind] in Hs.
  injection Hs as <-.
  unfold result_well_formed; cbn.
  split; [exact Hnd|split; [exact Hci|split; [exact Hrs|split]]].
  - rewrite length_list_set; exact Hlen.
  - apply Forall_list_set; assumption.
Qed.

(** C9 (counterexample): [RenderResult(2**31, 0, [red])] is a result
    built by the constructor, but [tofile] raises [struct.error]: the
    header packs the width as a 32-bit signed integer. *)
Lemma C9_counterexample :
  result_well_formed (mk_render_result (2 ^ 31) 0 [CRed]) [CRed] /\
  tofile plain_compress (mk_render_result (2 ^ 31) 0 [CRed]) = Err StructError.
Proof.
  split.
  - apply mk_render_result_well_formed; repeat constructor; simpl; tauto.
  - reflexivity.
Qed.

Section RoundTrip.
Variable compress : list Z -> list Z.
Variable decompress : list Z -> res (list Z).
(** The stream codec restores what it compressed ([lzma] in
    [raytrace/result.py], the identity in [result.py]). *)
Hypothesis codec_roundtrip : forall bs, decompress (compress bs) = Ok bs.

Lemma result_roundtrip rr cs :
  0 <= width rr < 2 ^ 31 -> 0 <= height rr < 2 ^ 31 -> result_well_formed rr cs ->
  exists file, tofile compress rr = Ok file /\ fromfile decompress file = Ok rr.
Proof.
  intros Hw Hh Hwf.
  destruct rr as [w h ci d rs]; unfold result_well_formed in Hwf; cbn [width height] in *.
  destruct Hwf as (Hnd & Hci & Hrs & Hlen & Hd); cbn [component_index row_stride data width height] in *.
  subst ci rs.
  pose proof (nodup_components_le_5 cs Hnd) as H5.
  rewrite component_index_of_nodup in * by exact Hnd.
  destruct (pack_3i_roundtrip w h (Z.of_nat (length cs)) Hw Hh ltac:(lia)) as (hb & Hp & Hhl & Hu).
  unfold tofile; cbn [width height component_index data].
  rewrite length_combine_seq, Hp; cbn [bind].
  eexists; split; [reflexivity|].
  rewrite sort_combine_seq, map_value_combine.
  set (payload := hb ++ map component_value cs ++ flat_map (le_bytes 8) d).
  unfold fromfile.
  replace (firstn 4 (magic ++ compress payload)) with magic
    by reflexivity.
  replace (skipn 4 (magic ++ compress payload)) with (compress payload) by reflexivity.
  cbv iota beta delta [list_Z_eqb magic]; simpl Z.eqb; cbv iota beta.
  rewrite codec_roundtrip; cbn [bind].
  assert (Hf : firstn 12 payload = hb).
  { unfold payload; rewrite firstn_app, Hhl, Nat.sub_diag, firstn_O, app_nil_r.
    apply firstn_all2; lia. }
  rewrite Hf, Hu; cbn [bind].
  assert (Hs : skipn 12 payload = map component_value cs ++ flat_map (le_bytes 8) d).
  { unfold payload; rewrite skipn_app, Hhl, Nat.sub_diag, skipn_all2 by lia; reflexivity. }
  rewrite Hs, Nat2Z.id, read_components_app; cbn [bind].
  replace (w * h * Z.of_nat (length cs) <? 0) with false
    by (symmetry; apply Z.ltb_ge; apply Z.mul_nonneg_nonneg; [apply Z.mul_nonneg_nonneg|]; lia).
  assert (Hs2 : skipn (12 + length cs) payload = flat_map (le_bytes 8) d ++ []).
  { rewrite app_nil_r. unfold payload.
    rewrite app_assoc, skipn_app, length_app, Hhl, length_map, Nat.sub_diag, skipn_all2
      by (rewrite length_app, length_map; lia).
    reflexivity. }
  cbn [andb]. rewrite Hs2, <- Hlen, read_doubles_app by exact Hd; cbn [bind].
  unfold mk_render_result; cbn [width height component_index row_stride].
  rewrite component_index_of_nodup by exact Hnd. reflexivity.
Qed.


(** C9: results built by [RenderResult(width, height, components)] from
    distinct components, then filled with [__setitem__], stay well formed;
    for such a result whose width and height are below 2**31, [tofile]
    succeeds and [fromfile] on its bytes gives back the same width,
    height, component order, row stride and stored values. *)
Theorem C9_result_roundtrip :
  (forall w h cs, NoDup cs -> result_well_formed (mk_render_result w h cs) cs) /\
  (forall rr cs x y c v rr',
     result_well_formed rr cs -> 0 <= v < 2 ^ 64 -> setitem rr x y c v = Ok rr' ->
     result_well_formed rr' cs) /\
  (forall rr cs,
     0 <= width rr < 2 ^ 31 -> 0 <= height rr < 2 ^ 31 -> result_well_formed rr cs ->
     exists file, tofile compress rr = Ok file /\ fromfile decompress file = Ok rr).
Proof.
  split; [exact mk_render_result_well_formed|split; [exact setitem_well_formed|]].
  exact result_roundtrip.
Qed.

End RoundTrip.

Lemma C9_witness :
  (forall bs, plain_decompress (plain_compress bs) = Ok bs) /\
  (0 <= width (mk_render_result 2 1 [CRed; CGreen; CBlue]) < 2 ^ 31) /\
  (0 <= height (mk_render_result 2 1 [CRed; CGreen; CBlue]) < 2 ^ 31) /\
  result_well_formed (mk_render_result 2 1 [CRed; CGreen; CBlue]) [CRed; CGreen; CBlue] /\
  exists file, tofile plain_compress (mk_render_result 2 1 [CRed; CGreen; CBlue]) = Ok file /\
    fromfile plain_decompress file = Ok (mk_render_result 2 1 [CRed; CGreen; CBlue]).
Proof.
  assert (Hc : forall bs, plain_decompress (plain_compress bs) = Ok bs) by reflexivity.
  assert (Hw : 0 <= width (mk_render_result 2 1 [CRed; CGreen; CBlue]) < 2 ^ 31) by (simpl; lia).
  assert (Hh : 0 <= height (mk_render_result 2 1 [CRed; CGreen; CBlue]) < 2 ^ 31) by (simpl; lia).
  assert (Hwf : result_well_formed (mk_render_result 2 1 [CRed; CGreen; CBlue]) [CRed; CGreen; CBlue]).
  { unfold result_well_formed; simpl.
    split; [repeat constructor; simpl; intuition discriminate|].
    split; [reflexivity|split; [reflexivity|split; [reflexivity|]]].
    repeat constructor; lia. }
  split; [exact Hc|split; [exact Hw|split; [exact Hh|split; [exact Hwf|]]]].
  exact (proj2 (proj2 (C9_result_roundtrip plain_compress plain_decompress Hc)) _ _ Hw Hh Hwf).
Defined.

Close Scope Z_scope.

(** ** Further properties of the code *)

Lemma norm_zero_iff a : norm a = 0 <-> a = Vec 0 0 0.
Proof.
  unfold norm, norm2, vdot; destruct a as [x y z]; simpl; split.
  - intros H; apply sqrt_eq_0 in H; [|nra].
    assert (x = 0) by nra; assert (y = 0) by nra; assert (z = 0) by nra; subst; reflexivity.
  - intros H; injection H as -> -> ->; replace (0 * 0 + 0 * 0 + 0 * 0) with 0 by ring;
      apply sqrt_0.
Qed.

Lemma norm_pos a : a <> Vec 0 0 0 -> 0 < norm a.
Proof.
  intros H; pose proof (sqrt_pos (norm2 a)) as P; fold (norm a) in P.
  destruct P as [P|P]; [exact P|]. exfalso; apply H, norm_zero_iff; auto.
Qed.

(** [Vector.normalized]: the zero vector raises [ZeroDivisionError]; any
    other vector gives a unit vector pointing the same way (a positive
    multiple of it). *)
Theorem normalized_unit_or_raises a :
  (a = Vec 0 0 0 -> normalized a = Err ZeroDivisionError) /\
  (a <> Vec 0 0 0 -> exists d, normalized a = Ok d /\ norm2 d = 1 /\
     exists k, 0 < k /\ d = vscale k a).
Proof.
  split.
  - intros Ha; unfold normalized, vdiv.
    rewrite (proj2 (norm_zero_iff a) Ha); unfold Reqb;
      destruct (Req_EM_T 0 0); [reflexivity|congruence].
  - intros Ha; pose proof (norm_pos a Ha) as Hp.
    unfold normalized, vdiv; unfold Reqb at 1;
      destruct (Req_EM_T (norm a) 0) as [E|_]; [lra|].
    eexists; split; [reflexivity|]; split.
    + pose proof (norm_sq a) as Hs.
      set (N := norm a) in *; clearbody N.
      unfold norm2, vdot in *; cbn [vx vy vz].
      transitivity ((vx a * vx a + vy a * vy a + vz a * vz a) / (N * N)); [field; lra|].
      rewrite <- Hs; field; lra.
    + exists (/ norm a); split; [apply Rinv_0_lt_compat, Hp|].
      unfold vscale; f_equal; unfold Rdiv; ring.
Qed.

(** [Vector.reflected]: reflecting from a unit normal keeps the length of
    the vector. *)
Theorem reflected_preserves_norm a n :
  norm2 n = 1 -> norm2 (reflected a n) = norm2 a.
Proof.
  destruct a as [x y z], n as [p q r]; unfold reflected, norm2, vdot, vsub, vscale; simpl.
  intros H; set (k := x * p + y * q + z * r).
  transitivity (x * x + y * y + z * z - 4 * k * k + 4 * k * k * (p * p + q * q + r * r));
    [unfold k; ring | rewrite H; ring].
Qed.

(** [Vector.cross]: the cross product is orthogonal to both of its
    arguments. *)
Theorem cross_orthogonal a b : vdot (cross a b) a = 0 /\ vdot (cross a b) b = 0.
Proof. destruct a, b; unfold cross, vdot; simpl; split; ring. Qed.

Lemma normalized_unit d : norm2 d = 1 -> normalized d = Ok d.
Proof.
  intros H; unfold normalized, vdiv, norm; rewrite H, sqrt_1.
  unfold Reqb; destruct (Req_EM_T 1 0); [lra|].
  destruct d; unfold Rdiv; rewrite Rinv_1, !Rmult_1_r; reflexivity.
Qed.

(** [Ray.__neg__] on a ray with a unit direction (every ray built by the
    constructor): it succeeds with the same source and bounds and the
    opposite direction, and negating again gives back the original ray. *)
Theorem ray_neg_involutive r :
  norm2 (direction r) = 1 ->
  exists r', ray_neg r = Ok r' /\
    source r' = source r /\ direction r' = vneg (direction r) /\
    min_distance r' = min_distance r /\ max_distance r' = max_distance r /\
    ray_neg r' = Ok r.
Proof.
  intros H; destruct r as [s d lo hi]; simpl in H.
  assert (Hn : norm2 (vneg d) = 1)
    by (rewrite <- H; destruct d; unfold norm2, vdot, vneg; simpl; ring).
  unfold ray_neg, mk_ray; simpl; rewrite (normalized_unit _ Hn); simpl.
  eexists; split; [reflexivity|]; repeat split.
  assert (Hd : vneg (vneg d) = d) by (destruct d; unfold vneg; simpl; f_equal; ring).
  unfold ray_neg, mk_ray; cbn [source direction min_distance max_distance].
  rewrite Hd, (normalized_unit _ H); reflexivity.
Qed.


Lemma py_max0_id v : 0 <= v -> py_max0 v = v.
Proof. unfold py_max0, Rltb; destruct (Rlt_dec 0 v); lra. Qed.

Lemma py_clamp_range v lo hi : 0 <= lo <= hi -> lo <= py_clamp v lo hi <= hi.
Proof.
  unfold py_clamp, Rltb; destruct (Rlt_dec hi v); destruct (Rlt_dec _ lo); lra.
Qed.

Lemma py_clamp_id v lo hi : lo <= v <= hi -> py_clamp v lo hi = v.
Proof.
  unfold py_clamp, Rltb; intros H; destruct (Rlt_dec hi v); [lra|].
  destruct (Rlt_dec v lo); lra.
Qed.


(** [Colour.clamp(min_value, max_value)] with [0 <= min_value <= max_value]:
    every component ends in [min_value, max_value], and clamping again
    changes nothing. *)
Theorem clamp_within_bounds c lo hi :
  0 <= lo <= hi ->
  lo <= red (clamp c lo hi) <= hi /\ lo <= green (clamp c lo hi) <= hi /\
  lo <= blue (clamp c lo hi) <= hi /\ clamp (clamp c lo hi) lo hi = clamp c lo hi.
Proof.
  intros H.
  pose proof (py_clamp_range (red c) lo hi H).
  pose proof (py_clamp_range (green c) lo hi H).
  pose proof (py_clamp_range (blue c) lo hi H).
  assert (E : clamp c lo hi =
    MkColour (py_clamp (red c) lo hi) (py_clamp (green c) lo hi) (py_clamp (blue c) lo hi))
    by (unfold clamp, Colour; rewrite !py_max0_id by lra; reflexivity).
  rewrite E; cbn [red green blue]; repeat split; try lra.
  unfold clamp, Colour; cbn [red green blue].
  rewrite (py_clamp_id (py_clamp (red c) lo hi)), (py_clamp_id (py_clamp (green c) lo hi)),
    (py_clamp_id (py_clamp (blue c) lo hi)) by lra.
  rewrite !py_max0_id by lra; reflexivity.
Qed.


(** [Colour.clamp()] with its default bounds [0.0] and [0.0] turns every
    colour black. *)
Theorem clamp_defaults_black c : clamp c 0 0 = BLACK.
Proof.
  unfold clamp, BLACK, Colour, py_clamp, py_max0, Rltb; f_equal;
  repeat match goal with |- context [Rlt_dec ?a ?b] => destruct (Rlt_dec a b) end;
  lra.
Qed.


Open Scope Z_scope.

Lemma rgb_channel_range v m : 0 <= rgb_channel v m <= 255.
Proof. unfold rgb_channel; lia. Qed.

(** [Colour.rgb(multiplier)]: the result lies in [0, 2**24) and its three
    bytes, from the highest, are the red, green and blue channels
    [max(min(int(v * multiplier), 255), 0)], each in [0, 255]. *)
Theorem rgb_packs_channels c m :
  0 <= rgb c m < 2 ^ 24 /\
  Z.land (Z.shiftr (rgb c m) 16) 255 = rgb_channel (red c) m /\
  Z.land (Z.shiftr (rgb c m) 8) 255 = rgb_channel (green c) m /\
  Z.land (rgb c m) 255 = rgb_channel (blue c) m /\
  0 <= rgb_channel (red c) m <= 255 /\ 0 <= rgb_channel (green c) m <= 255 /\
  0 <= rgb_channel (blue c) m <= 255.
Proof.
  unfold rgb.
  pose proof (rgb_channel_range (red c) m) as Hr.
  pose proof (rgb_channel_range (green c) m) as Hg.
  pose proof (rgb_channel_range (blue c) m) as Hb.
  set (r := rgb_channel (red c) m) in *; set (g := rgb_channel (green c) m) in *;
    set (b := rgb_channel (blue c) m) in *; clearbody r g b.
  rewrite !Z.shiftl_mul_pow2 by lia.
  change 255 with (Z.ones 8); rewrite !Z.land_ones by lia.
  rewrite !Z.shiftr_div_pow2 by lia.
  change (2 ^ 16) with 65536; change (2 ^ 8) with 256; change (2 ^ 24) with 16777216.
  change (Z.ones 8) with 255.
  repeat split; try lia.
  - rewrite <- (Z.div_unique (r * 65536 + g * 256 + b) 65536 r (g * 256 + b)) by lia.
    apply Z.mod_small; lia.
  - rewrite <- (Z.div_unique (r * 65536 + g * 256 + b) 256 (r * 256 + g) b) by lia.
    rewrite <- (Z.mod_unique (r * 256 + g) 256 r g) by lia; reflexivity.
  - rewrite <- (Z.mod_unique (r * 65536 + g * 256 + b) 256 (r * 256 + g) b) by lia; reflexivity.
Qed.

Close Scope Z_scope.

Ltac rdec :=
  repeat (unfold Rltb, Rleb in *;
    match goal with
    | |- context [Rlt_dec ?a ?b] => destruct (Rlt_dec a b)
    | |- context [Rle_dec ?a ?b] => destruct (Rle_dec a b)
    | H : context [Rlt_dec ?a ?b] |- _ => destruct (Rlt_dec a b)
    | H : context [Rle_dec ?a ?b] |- _ => destruct (Rle_dec a b)
    end; simpl in *);
  try reflexivity; try discriminate; try lra.

Lemma xle_xmax2_l a b x : a <> NaN -> b <> NaN ->
  xle (xmax2 a b) x = xle a x && xle b x.
Proof. intros Ha Hb; unfold xmax2; destruct a, b, x; simpl; try congruence; rdec. Qed.

Lemma xle_xmin2_r a b x : a <> NaN -> b <> NaN ->
  xle x (xmin2 a b) = xle x a && xle x b.
Proof. intros Ha Hb; unfold xmin2; destruct a, b, x; simpl; try congruence; rdec. Qed.

Lemma xle_xmin2_l a b x : a <> NaN -> b <> NaN ->
  xle (xmin2 a b) x = xle a x || xle b x.
Proof. intros Ha Hb; unfold xmin2; destruct a, b, x; simpl; try congruence; rdec. Qed.

Lemma xle_xmax2_r a b x : a <> NaN -> b <> NaN ->
  xle x (xmax2 a b) = xle x a || xle x b.
Proof. intros Ha Hb; unfold xmax2; destruct a, b, x; simpl; try congruence; rdec. Qed.

Lemma xle_trans a b c : xle a b = true -> xle b c = true -> xle a c = true.
Proof. destruct a, b, c; simpl; try congruence; rdec. Qed.

Lemma xlt_xle_false a b v : xlt b a = true -> xle a v = true -> xle v b = true -> False.
Proof. destruct a, b, v; simpl; try congruence; rdec. Qed.

Lemma xmin2_not_nan' a b : a <> NaN -> b <> NaN -> xmin2 a b <> NaN.
Proof. unfold xmin2; destruct (xlt b a); auto. Qed.

Lemma xmax2_not_nan a b : a <> NaN -> b <> NaN -> xmax2 a b <> NaN.
Proof. unfold xmax2; destruct (xlt a b); auto. Qed.

Lemma xle_refl_not_nan a : a <> NaN -> xle a a = true.
Proof. destruct a; simpl; try congruence; rdec. Qed.

Lemma combine_bounds a b :
  box_not_nan a -> box_not_nan b ->
  box_within a (combine a b) = true /\ box_within b (combine a b) = true /\
  box_not_nan (combine a b) /\
  forall p, in_box a p = true \/ in_box b p = true -> in_box (combine a b) p = true.
Proof.
  intros (A1 & A2 & A3 & A4 & A5 & A6) (B1 & B2 & B3 & B4 & B5 & B6).
  unfold box_within, in_box, combine, box_not_nan; cbn [xmin xmax ymin ymax zmin zmax].
  rewrite !xle_xmin2_l, !xle_xmax2_r by auto.
  rewrite !xle_refl_not_nan by auto.
  split; [rewrite !orb_true_l; reflexivity|].
  split; [rewrite !orb_true_r; reflexivity|].
  split; [repeat split; auto using xmin2_not_nan', xmax2_not_nan|].
  intros p [H|H]; rewrite !xle_xmin2_l, !xle_xmax2_r by auto; repeat rewrite andb_true_iff in H; destruct H as (((((H1 & H2) & H3) & H4) & H5) & H6);
    rewrite H1, H2, H3, H4, H5, H6; rewrite ?orb_true_l, ?orb_true_r; reflexivity.
Qed.

(** [AxisAlignedBox.combine] of two boxes without nan bounds: both boxes
    lie within the result, which has no nan bound, and every point of
    either box is in it. *)
Theorem combine_contains a b :
  box_not_nan a -> box_not_nan b ->
  box_within a (combine a b) = true /\ box_within b (combine a b) = true /\
  box_not_nan (combine a b) /\
  forall p, in_box a p = true \/ in_box b p = true -> in_box (combine a b) p = true.
Proof. exact (combine_bounds a b). Qed.

Ltac split_andb H :=
  repeat match type of H with
  | (_ && _)%bool = true => apply andb_true_iff in H
  | _ /\ _ => let H1 := fresh "H" in let H2 := fresh "H" in destruct H as [H1 H2];
      split_andb H1; split_andb H2
  end.

Lemma axis_empty lo1 hi1 lo2 hi2 v :
  lo1 <> NaN -> hi1 <> NaN -> lo2 <> NaN -> hi2 <> NaN ->
  xlt (xmin2 hi1 hi2) (xmax2 lo1 lo2) = true ->
  xle lo1 v = true -> xle v hi1 = true -> xle lo2 v = true -> xle v hi2 = true -> False.
Proof.
  intros N1 N2 N3 N4 Hlt H1 H2 H3 H4.
  apply (xlt_xle_false (xmax2 lo1 lo2) (xmin2 hi1 hi2) v Hlt).
  - rewrite xle_xmax2_l by auto; rewrite H1, H3; reflexivity.
  - rewrite xle_xmin2_r by auto; rewrite H2, H4; reflexivity.
Qed.

(** [AxisAlignedBox.overlap] of two boxes without nan bounds: a returned
    box lies within both and holds exactly the points common to both;
    [None] means the boxes share no point. *)
Theorem overlap_is_intersection a b :
  box_not_nan a -> box_not_nan b ->
  (forall o, overlap a b = Some o ->
     box_within o a = true /\ box_within o b = true /\
     forall p, in_box o p = in_box a p && in_box b p) /\
  (overlap a b = None -> forall p, in_box a p && in_box b p = false).
Proof.
  intros (A1 & A2 & A3 & A4 & A5 & A6) (B1 & B2 & B3 & B4 & B5 & B6).
  unfold overlap.
  destruct (xlt (xmin2 (xmax a) (xmax b)) (xmax2 (xmin a) (xmin b))) eqn:Ex;
  [|destruct (xlt (xmin2 (ymax a) (ymax b)) (xmax2 (ymin a) (ymin b))) eqn:Ey;
  [|destruct (xlt (xmin2 (zmax a) (zmax b)) (xmax2 (zmin a) (zmin b))) eqn:Ez]].
  4: {
    split; [|discriminate].
    intros o Ho; injection Ho as <-.
    unfold box_within, in_box; cbn [xmin xmax ymin ymax zmin zmax].
    rewrite !xle_xmax2_r, !xle_xmin2_l by auto.
    rewrite !xle_refl_not_nan by auto.
    split; [rewrite ?orb_true_l, ?orb_true_r; reflexivity|].
    split; [rewrite ?orb_true_l, ?orb_true_r; reflexivity|].
    intros p; rewrite !xle_xmax2_l, !xle_xmin2_r by auto; btauto. }
  all: split; [discriminate|]; intros _ p.
  all: destruct (in_box a p && in_box b p) eqn:E; [exfalso|reflexivity].
  all: unfold in_box in E; split_andb E.
  - eapply (axis_empty (xmin a) (xmax a) (xmin b) (xmax b) (Fin (vx p))); eauto.
  - eapply (axis_empty (ymin a) (ymax a) (ymin b) (ymax b) (Fin (vy p))); eauto.
  - eapply (axis_empty (zmin a) (zmax a) (zmin b) (zmax b) (Fin (vz p))); eauto.
Qed.

Lemma sphere_root_on_surface c radius r t :
  norm2 (direction r) = 1 ->
  t * t - 2 * vdot (direction r) (vsub c (source r)) * t
    + (norm2 (vsub c (source r)) - radius * radius) = 0 ->
  norm2 (vsub (point r t) c) = radius * radius.
Proof.
  destruct r as [[sx sy sz] [dx dy dz] lo hi], c as [cx cy cz].
  unfold norm2, vdot, point, vsub, vadd, vscale; cbn.
  intros Hd Ht.
  transitivity (t * t * (dx * dx + dy * dy + dz * dz)
     - 2 * (dx * (cx - sx) + dy * (cy - sy) + dz * (cz - sz)) * t
     + ((cx - sx) * (cx - sx) + (cy - sy) * (cy - sy) + (cz - sz) * (cz - sz))); [ring|].
  rewrite Hd; lra.
Qed.

Lemma Rleb_true_iff a b : Rleb a b = true <-> a <= b.
Proof. unfold Rleb; destruct (Rle_dec a b); split; congruence || tauto. Qed.

Lemma sq_bound x rad : 0 <= rad -> x * x <= rad * rad -> - rad <= x <= rad.
Proof.
  intros Hr H; split.
  - destruct (Rle_dec (- rad) x) as [|N]; [assumption|]; apply Rnot_le_lt in N.
    assert (P : 0 < (- rad - x) * (rad - x)) by (apply Rmult_lt_0_compat; lra).
    exfalso; ring_simplify in P; lra.
  - destruct (Rle_dec x rad) as [|N]; [assumption|]; apply Rnot_le_lt in N.
    assert (P : 0 < (x - rad) * (x + rad)) by (apply Rmult_lt_0_compat; lra).
    exfalso; ring_simplify in P; lra.
Qed.

Lemma in_sphere_box c radius p :
  0 <= radius -> norm2 (vsub p c) <= radius * radius ->
  in_box (sphere_bounding_box c radius) p = true.
Proof.
  destruct p as [px py pz], c as [cx cy cz].
  unfold norm2, vdot, vsub, in_box, sphere_bounding_box; cbn; intros Hr H.
  pose proof (Rle_0_sqr (px - cx)); pose proof (Rle_0_sqr (py - cy));
  pose proof (Rle_0_sqr (pz - cz)); unfold Rsqr in *.
  assert (X := sq_bound (px - cx) radius Hr ltac:(lra)).
  assert (Y := sq_bound (py - cy) radius Hr ltac:(lra)).
  assert (Z := sq_bound (pz - cz) radius Hr ltac:(lra)).
  rewrite !(proj2 (Rleb_true_iff _ _)) by lra; reflexivity.
Qed.

(** [Sphere._intersection] for a ray with a unit direction: a reported
    distance is inside the ray's interval, the hit point is at distance
    [radius] from the centre, and (for a radius [>= 0]) it lies in the
    sphere's bounding box. *)
Theorem sphere_hit_on_surface c radius r t :
  norm2 (direction r) = 1 -> sphere_distance c radius r = Some t ->
  in_range r (Fin t) = true /\
  norm2 (vsub (point r t) c) = radius * radius /\
  (0 <= radius -> in_box (sphere_bounding_box c radius) (point r t) = true).
Proof.
  intros Hd Hs.
  pose proof (sphere_distance_min_root c radius r) as H; cbv zeta in H.
  rewrite Hs in H; destruct H as (Ht & Hin & _).
  pose proof (sphere_root_on_surface c radius r t Hd Ht) as Hn.
  split; [exact Hin|split; [exact Hn|]].
  intros Hr; apply in_sphere_box; lra.
Qed.

(** [Sphere._intersection] when the ray (with a unit direction) hits:
    without a normal it returns the distance alone; with a normal, for a
    non-zero radius the normal is the hit point minus the centre divided by
    [|radius|], and for radius 0 normalising it raises
    [ZeroDivisionError]. *)
Theorem sphere_intersection_normal c radius r t :
  norm2 (direction r) = 1 -> sphere_distance c radius r = Some t ->
  sphere_intersection c radius r false = Ok (Some (Fin t), None) /\
  (radius <> 0 -> sphere_intersection c radius r true =
     Ok (Some (Fin t), Some (vscale (/ Rabs radius) (vsub (point r t) c)))) /\
  (radius = 0 -> sphere_intersection c radius r true = Err ZeroDivisionError).
Proof.
  intros Hd Hs.
  pose proof (sphere_distance_min_root c radius r) as H; cbv zeta in H.
  rewrite Hs in H; destruct H as (Ht & _ & _).
  pose proof (sphere_root_on_surface c radius r t Hd Ht) as Hn.
  assert (Hnorm : norm (vsub (point r t) c) = Rabs radius).
  { unfold norm; rewrite Hn; apply sqrt_Rsqr_abs. }
  unfold sphere_intersection; rewrite Hs.
  split; [reflexivity|split].
  - intros Hr. unfold normalized, vdiv; rewrite Hnorm.
    assert (Ha : Rabs radius <> 0) by (apply Rabs_no_R0; exact Hr).
    rewrite (Reqb_f _ _ Ha); cbn [bind].
    unfold vscale; do 4 f_equal; field; exact Ha.
  - intros ->. unfold normalized, vdiv; rewrite Hnorm, Rabs_R0, (Reqb_t 0 0) by reflexivity.
    reflexivity.
Qed.

Lemma normalized_ok_unit a d : normalized a = Ok d -> norm2 d = 1.
Proof.
  intros H; apply normalized_ok in H as [Hn ->].
  pose proof (norm_sq a) as Hs.
  set (N := norm a) in *; clearbody N.
  unfold norm2, vdot in *; cbn [vx vy vz].
  transitivity ((vx a * vx a + vy a * vy a + vz a * vz a) / (N * N)); [field; exact Hn|].
  rewrite <- Hs; field; exact Hn.
Qed.

(** [Plane._intersection] of a plane built by [Plane(point, normal)], with
    a positive tolerance: it never raises and always returns the plane's
    unit normal; a ray almost parallel to the plane gets no distance, and a
    reported distance is inside the ray's interval with the hit point on
    the plane. *)
Theorem plane_intersection_on_plane tol p n pl r cn :
  0 < tol -> mk_plane p n = Ok pl ->
  norm2 (plane_normal pl) = 1 /\
  exists d, plane_intersection tol pl r cn = Ok (d, Some (plane_normal pl)) /\
    (Rabs (vdot (direction r) (plane_normal pl)) < tol -> d = None) /\
    forall t, d = Some (Fin t) ->
      in_range r (Fin t) = true /\ vdot (vsub (point r t) p) (plane_normal pl) = 0.
Proof.
  intros Htol Hpl.
  unfold mk_plane in Hpl; destruct (normalized n) as [nn|e] eqn:Hn; [|discriminate].
  cbn [bind] in Hpl; injection Hpl as <-; cbn [plane_normal plane_point signed_distance].
  split; [exact (normalized_ok_unit _ _ Hn)|].
  unfold plane_intersection; cbn [plane_normal signed_distance].
  set (proj := vdot (direction r) nn).
  destruct (Rltb (Rabs proj) tol) eqn:E.
  - exists None; split; [reflexivity|]; split; [reflexivity|]; discriminate.
  - apply Rltb_false_iff in E.
    assert (Hp : proj <> 0) by (intros H0; apply E; rewrite H0, Rabs_R0; exact Htol).
    rewrite (Reqb_f _ _ Hp).
    set (t := (vdot p nn - vdot (source r) nn) / proj).
    destruct (in_range r (Fin t)) eqn:Hin.
    + exists (Some (Fin t)); split; [reflexivity|]; split; [intros; lra|].
      intros t' Ht'; injection Ht' as <-; split; [exact Hin|].
      unfold t, proj in *; clear t Hin E.
      destruct r as [[sx sy sz] [dx dy dz] lo hi], p as [px py pz], nn as [a b c].
      unfold vdot, vsub, point, vadd, vscale in *; cbn in *.
      field; exact Hp.
    + exists None; split; [reflexivity|]; split; [reflexivity|]; discriminate.
Qed.

Lemma box_within_trans a b c : box_within a b = true -> box_within b c = true -> box_within a c = true.
Proof.
  unfold box_within; intros H1 H2; split_andb H1; split_andb H2.
  repeat (apply andb_true_iff; split); eapply xle_trans; eauto.
Qed.

Lemma box_within_refl b : box_not_nan b -> box_within b b = true.
Proof.
  intros (N1 & N2 & N3 & N4 & N5 & N6); unfold box_within.
  rewrite !xle_refl_not_nan by auto; reflexivity.
Qed.

Section TreeBounds.
Variable obj : Type.
Variable ob : obj -> res (option aabox).


Lemma make_group_box_ok t best swap g :
  tree_box_ok obj ob t -> tree_box_ok obj ob best -> make_group obj ob t best swap = Ok g -> tree_box_ok obj ob g.
Proof.
  intros (b1 & E1 & N1 & H1) (b2 & E2 & N2 & H2).
  unfold make_group; rewrite E1; cbn [bind]; rewrite E2; cbn [bind].
  intros Hg; injection Hg as <-.
  destruct (combine_bounds b1 b2 N1 N2) as (W1 & W2 & Nc & _).
  exists (combine b1 b2); destruct swap; cbn [tree_bounding_box leaves];
    (split; [reflexivity|]); (split; [exact Nc|]);
    intros o b' Ho Eo; apply in_app_or in Ho as [Ho|Ho].
  - eapply box_within_trans; [apply (H2 o b' Ho Eo)|exact W2].
  - eapply box_within_trans; [apply (H1 o b' Ho Eo)|exact W1].
  - eapply box_within_trans; [apply (H1 o b' Ho Eo)|exact W1].
  - eapply box_within_trans; [apply (H2 o b' Ho Eo)|exact W2].
Qed.

Lemma tree_loop_box_ok S t :
  tree_loop obj ob S (Ok t) -> Forall (tree_box_ok obj ob) S -> tree_box_ok obj ob t.
Proof.
  intros H; remember (Ok t) as out eqn:Eo; revert t Eo.
  induction H as [t0|S t0 rest b1 best rest' swap g S' out P Hne Eb Em Pr Eg P' _ IH
                  | | |]; intros tf Eo HS; try discriminate.
  - injection Eo as <-; inversion HS; assumption.
  - apply IH; [exact Eo|].
    apply (Permutation_Forall P) in HS; inversion HS as [|? ? Gt Grest]; subst.
    apply (Permutation_Forall Pr) in Grest as Grest'; inversion Grest' as [|? ? Gb Gr']; subst.
    apply (Permutation_Forall (Permutation_sym P')); constructor; [|exact Gr'].
    exact (make_group_box_ok _ _ _ _ Gt Gb Eg).
Qed.
End TreeBounds.

Section SceneExtras.
Variable obj : Type.
Variable oi : obj -> ray -> bool -> res isect.
Variable ob : obj -> res (option aabox).

(** [Scene._compute_tree] over solids whose bounding boxes have no nan
    bound: every run of its loop builds a tree whose leaves are the solids
    (each once) and whose root box contains the box of every solid. *)
Theorem compute_tree_bounds (objs : list obj) (out : res (tree obj))
    (Hbb : forall o, In o objs -> exists b, ob o = Ok (Some b) /\ box_not_nan b)
    (Hloop : tree_loop obj ob (map Leaf objs) out) :
  exists t root, out = Ok t /\ Permutation objs (leaves obj t) /\
    tree_bounding_box obj ob t = Ok (Some root) /\
    forall o b, In o objs -> ob o = Ok (Some b) -> box_within b root = true.
Proof.
  assert (HF : Forall (good_tree obj ob) (map Leaf objs)).
  { apply Forall_forall; intros x Hx; apply in_map_iff in Hx as (o & <- & Ho).
    destruct (Hbb o Ho) as (b & E & _); simpl; eauto. }
  destruct (tree_loop_ok obj ob _ _ Hloop HF) as (t & -> & _ & Hp & _).
  rewrite flat_map_leaves in Hp.
  assert (HB : Forall (tree_box_ok obj ob) (map Leaf objs)).
  { apply Forall_forall; intros x Hx; apply in_map_iff in Hx as (o & <- & Ho).
    destruct (Hbb o Ho) as (b & E & N).
    exists b; split; [exact E|]; split; [exact N|].
    intros o' b' [<-|[]] E'; rewrite E in E'; injection E' as <-.
    apply box_within_refl; exact N. }
  destruct (tree_loop_box_ok obj ob _ _ Hloop HB) as (root & Er & _ & Hr).
  exists t, root; split; [reflexivity|]; split; [exact Hp|]; split; [exact Er|].
  intros o b Ho Eo; apply (Hr o b); [rewrite <- Hp; exact Ho|exact Eo].
Qed.

(** [Scene.intersection] raises exactly when the [intersection] of one of
    the solids raises. *)
Theorem scene_intersection_raises (objs : list obj) r cn :
  (exists e, scene_intersection obj oi objs r cn = Err e) <->
  (exists o e, In o objs /\ oi o r cn = Err e).
Proof.
  rewrite <- (scan_err obj oi objs r cn (acc_init obj)).
  unfold scene_intersection; destruct (scan obj oi objs r cn (acc_init obj)); cbn [bind];
    split; intros [e0 E0]; try discriminate; eauto.
Qed.

End SceneExtras.

Lemma vneg_vneg v : vneg (vneg v) = v.
Proof. destruct v; unfold vneg; cbn; f_equal; ring. Qed.

(** [Inverse(Inverse(o))] answers every ray exactly as [o] does: the
    normal is negated twice. *)
Theorem double_inverse_intersection o r cn :
  intersection (SInverse (SInverse o)) r cn = intersection o r cn.
Proof.
  cbn [intersection]; unfold inverse_intersection.
  destruct (intersection o r cn) as [[d n]|e]; cbn [bind fst snd]; [|reflexivity].
  destruct n; cbn [option_map]; rewrite ?vneg_vneg; reflexivity.
Qed.

Lemma bounding_box_ok_or_attribute_error s :
  (exists b, bounding_box s = Ok b) \/ bounding_box s = Err AttributeError.
Proof.
  induction s as [b m sh|c radius m sh|o1 IH1 o2 IH2 m sh|o IH]; cbn [bounding_box initial_cache primitive_bounding_box]; eauto.
  destruct IH1 as [[b1 E1]|E1]; rewrite E1; cbn [bind]; [|right; reflexivity].
  destruct IH2 as [[b2 E2]|E2]; rewrite E2; cbn [bind]; [|right; reflexivity].
  destruct b1, b2; eauto.
Qed.

(** [Difference(o1, o2).bounding_box()] always raises [AttributeError]:
    either [o1]'s box raises, or the [Inverse] around [o2] has no cached
    box attribute. *)
Theorem difference_bounding_box_raises o1 o2 m sh :
  bounding_box (Difference o1 o2 m sh) = Err AttributeError.
Proof.
  unfold Difference; cbn [bounding_box initial_cache primitive_bounding_box].
  destruct (bounding_box_ok_or_attribute_error o1) as [[b E]|E]; rewrite E; reflexivity.
Qed.

Open Scope Z_scope.


Lemma py_index_bound len i k : py_index len i = Ok k -> (k < len)%nat.
Proof.
  unfold py_index.
  destruct ((0 <=? i) && (i <? Z.of_nat len)) eqn:E1.
  - intros H; injection H as <-; apply andb_true_iff in E1 as [A B].
    apply Z.leb_le in A; apply Z.ltb_lt in B; lia.
  - destruct ((- Z.of_nat len <=? i) && (i <? 0)) eqn:E2; [|discriminate].
    intros H; injection H as <-; apply andb_true_iff in E2 as [A B].
    apply Z.leb_le in A; apply Z.ltb_lt in B; lia.
Qed.

Lemma nth_list_set_eq {A} (l : list A) k v d : (k < length l)%nat -> nth k (list_set l k v) d = v.
Proof. revert k; induction l as [|x l IH]; intros [|k] H; simpl in *; auto; try lia; apply IH; lia. Qed.

Lemma nth_list_set_neq {A} (l : list A) k k' v d : k' <> k -> nth k' (list_set l k v) d = nth k' l d.
Proof.
  revert k k'; induction l as [|x l IH]; intros [|k] [|k'] H; simpl; auto; try congruence.
  all: apply IH; congruence.
Qed.

Lemma getitem_slot rr x y c :
  getitem rr x y c = (k <- result_slot rr x y c ;; Ok (nth k (data rr) 0)).
Proof.
  unfold getitem, result_slot; destruct (result_index rr x y c); reflexivity.
Qed.

(** [RenderResult.__setitem__] that succeeds keeps the width, height,
    component index and row stride; reading the same key gives the stored
    value, and every key that maps to another array slot reads as
    before. *)
Theorem setitem_then_getitem rr x y c v rr' :
  setitem rr x y c v = Ok rr' ->
  width rr' = width rr /\ height rr' = height rr /\
  component_index rr' = component_index rr /\ row_stride rr' = row_stride rr /\
  getitem rr' x y c = Ok v /\
  forall x' y' c', result_slot rr x' y' c' <> result_slot rr x y c ->
    getitem rr' x' y' c' = getitem rr x' y' c'.
Proof.
  unfold setitem; intros Hs.
  destruct (result_index rr x y c) as [i|e] eqn:Ei; [|discriminate]; cbn [bind] in Hs.
  destruct (py_index (length (data rr)) i) as [k|e] eqn:Ek; [|discriminate]; cbn [bind] in Hs.
  injection Hs as <-.
  assert (Hslot : result_slot rr x y c = Ok k) by (unfold result_slot; rewrite Ei; exact Ek).
  pose proof (py_index_bound _ _ _ Ek) as Hk.
  cbn [width height component_index row_stride data].
  split; [reflexivity|split; [reflexivity|split; [reflexivity|split; [reflexivity|split]]]].
  - unfold getitem, result_index at 1; cbn [data component_index row_stride];
    fold (result_index rr x y c).
    rewrite Ei; cbn [bind]; rewrite length_list_set, Ek; cbn [bind].
    rewrite nth_list_set_eq by exact Hk; reflexivity.
  - intros x' y' c' Hne.
    assert (Hs' : forall rr2, component_index rr2 = component_index rr -> row_stride rr2 = row_stride rr ->
              length (data rr2) = length (data rr) -> result_slot rr2 x' y' c' = result_slot rr x' y' c').
    { intros rr2 H1 H2 H3; unfold result_slot, result_index; rewrite H1, H2, H3; reflexivity. }
    rewrite !getitem_slot.
    rewrite Hs' by (cbn; rewrite ?length_list_set; reflexivity).
    rewrite Hslot in Hne.
    destruct (result_slot rr x' y' c') as [k'|e]; cbn [bind data]; [|reflexivity].
    rewrite nth_list_set_neq by congruence; reflexivity.
Qed.

Lemma dict_get_missing cs i c : ~ In c cs -> dict_get (List.combine cs (seq i (length cs))) c = Err KeyError.
Proof.
  revert i; induction cs as [|c' cs IH]; intros i Hn; [reflexivity|]; simpl.
  destruct (component_eqb c c') eqn:E.
  - apply component_eqb_eq in E; subst; exfalso; apply Hn; left; reflexivity.
  - apply IH; intros H; apply Hn; right; exact H.
Qed.

(** [RenderResult.__getitem__] and [__setitem__] with a component the
    result was not built with raise [KeyError]. *)
Theorem missing_component_raises rr cs x y c v :
  result_well_formed rr cs -> ~ In c cs ->
  getitem rr x y c = Err KeyError /\ setitem rr x y c v = Err KeyError.
Proof.
  intros (Hnd & Hci & _) Hn.
  assert (E : result_index rr x y c = Err KeyError).
  { unfold result_index; rewrite Hci, component_index_of_nodup by exact Hnd.
    rewrite dict_get_missing by exact Hn; reflexivity. }
  unfold getitem, setitem; rewrite E; split; reflexivity.
Qed.

(** [RenderResult._index] does not check [x] against the width: the key
    [(x + width, y, c)] is the key [(x, y + 1, c)], for reading and
    writing. *)
Theorem next_row_alias rr cs x y c v :
  result_well_formed rr cs ->
  result_index rr (x + width rr) y c = result_index rr x (y + 1) c /\
  getitem rr (x + width rr) y c = getitem rr x (y + 1) c /\
  setitem rr (x + width rr) y c v = setitem rr x (y + 1) c v.
Proof.
  intros (Hnd & Hci & Hrs & _).
  assert (E : result_index rr (x + width rr) y c = result_index rr x (y + 1) c).
  { unfold result_index; destruct (dict_get (component_index rr) c); cbn [bind]; [|reflexivity].
    rewrite Hrs, Hci, component_index_of_nodup, length_combine_seq by exact Hnd.
    f_equal; ring. }
  unfold getitem, setitem; rewrite E; repeat split; reflexivity.
Qed.

Lemma list_Z_eqb_eq a b : list_Z_eqb a b = true -> a = b.
Proof.
  revert b; induction a as [|x a IH]; intros [|y b]; simpl; try discriminate; auto.
  intros H; apply andb_true_iff in H as [H1 H2]; apply Z.eqb_eq in H1; subst; f_equal; auto.
Qed.

(** [RenderResult.fromfile] on a file that does not start with the magic
    bytes [SAW\x00] raises [AssertionError]. *)
Theorem fromfile_checks_magic decompress file :
  firstn 4 file <> magic -> fromfile decompress file = Err AssertionError.
Proof.
  intros Hm; unfold fromfile.
  destruct (list_Z_eqb (firstn 4 file) magic) eqn:E; [|reflexivity].
  apply list_Z_eqb_eq in E; contradiction.
Qed.

Close Scope Z_scope.

Lemma clamped_unit c :
  0 <= red (clamped c) <= 1 /\ 0 <= green (clamped c) <= 1 /\ 0 <= blue (clamped c) <= 1.
Proof.
  assert (H01 : 0 <= 0 <= 1) by lra.
  pose proof (py_clamp_range (red c) 0 1 H01).
  pose proof (py_clamp_range (green c) 0 1 H01).
  pose proof (py_clamp_range (blue c) 0 1 H01).
  unfold clamped, Colour; cbn [red green blue]; rewrite !py_max0_id by lra; lra.
Qed.

(** [Renderer._compute_colour]: every colour it returns has its three
    components in [0, 1]. *)
Theorem compute_colour_in_unit_cube obj obj_material scene_call lights ca cd cs recursion_depth
    fuel r depth so c :
  compute_colour obj obj_material scene_call lights ca cd cs recursion_depth fuel r depth so
    = Some (Ok c) ->
  0 <= red c <= 1 /\ 0 <= green c <= 1 /\ 0 <= blue c <= 1.
Proof.
  revert r depth so c; induction fuel as [|fuel IH]; intros r depth so c H; [discriminate|].
  simpl in H.
  destruct (scene_call r true (Some so)) as [[[o d] n]|e]; [|discriminate].
  destruct d as [[t| | |]|]; try discriminate.
  2: { injection H as <-; unfold Colour, py_max0; rewrite Rltb_f by lra; cbn; lra. }
  destruct (shade_lights obj ca cd cs o (point r t) n (Colour 0 0 0) lights) as [c0|e]; [|discriminate].
  destruct (reflectivity_of obj obj_material o) as [refl|e]; [|discriminate].
  destruct (Reqb refl 0 || Nat.leb recursion_depth depth).
  - injection H as <-; apply clamped_unit.
  - destruct n as [nv|]; [|discriminate].
    destruct (mk_ray_default (point r t) (reflected (direction r) nv)) as [rr|e]; [|discriminate].
    destruct (compute_colour obj obj_material scene_call lights ca cd cs recursion_depth fuel rr (S depth) o)
      as [[rc|e]|]; try discriminate.
    injection H as <-; apply clamped_unit.
Qed.

Lemma map_res_ok {A B} (f : A -> res B) (g : A -> B) l :
  (forall x, In x l -> f x = Ok (g x)) -> map_res f l = Ok (map g l).
Proof.
  induction l as [|x l IH]; intros H; [reflexivity|]; simpl.
  rewrite (H x (or_introl eq_refl)); cbn [bind].
  rewrite IH by (intros; apply H; right; assumption); reflexivity.
Qed.

Lemma length_pixel_order xs ys : length (pixel_order xs ys) = (length ys * length xs)%nat.
Proof.
  unfold pixel_order; induction ys as [|y ys IH]; [reflexivity|]; simpl.
  rewrite length_app, length_map, IH; lia.
Qed.

Lemma map_fst_pixel_order {C} (h : Z * Z -> C) xs ys :
  map (fun p : Z * Z * C => let '(x, y, _) := p in (x, y))
      (map (fun p : Z * Z => (fst p, snd p, h p)) (pixel_order xs ys)) = pixel_order xs ys.
Proof.
  rewrite map_map; induction (pixel_order xs ys) as [|[x y] l IH]; [reflexivity|]; simpl.
  rewrite IH; reflexivity.
Qed.

(** [Orthographic.rays] for non-zero image sizes and a unit [forward] (as
    the constructor leaves it): it yields [ray_count] rays, one per pixel,
    rows in order ([y] outer, [x] inner), each along [forward] with the
    default interval (0, inf). *)
Theorem ortho_rays_grid cam iw ih xmin xmax ymin ymax :
  iw <> 0%Z -> ih <> 0%Z -> norm2 (cam_forward cam) = 1 ->
  exists rays, ortho_rays cam iw ih xmin xmax ymin ymax = Ok rays /\
    Z.of_nat (length rays) = ray_count iw ih xmin xmax ymin ymax /\
    map (fun p : Z * Z * ray => let '(x, y, _) := p in (x, y)) rays =
      pixel_order (coordinate_range xmin xmax iw) (coordinate_range ymin ymax ih) /\
    Forall (fun p : Z * Z * ray => let '(_, _, r) := p in
      direction r = cam_forward cam /\ min_distance r = Fin 0 /\ max_distance r = INFINITY) rays.
Proof.
  intros Hw Hh Hf.
  unfold ortho_rays, py_div.
  rewrite (Reqb_f (IZR iw) 0) by (apply not_0_IZR; exact Hw).
  rewrite (Reqb_f (IZR ih) 0) by (apply not_0_IZR; exact Hh).
  cbn [bind].
  set (pw := cam_width cam / IZR iw); set (ph := cam_height cam / IZR ih).
  set (bl := vadd _ _).
  set (src := fun p : Z * Z => vadd (vadd bl (vscale (IZR (fst p) * pw) (cam_right cam)))
                                    (vscale (IZR (snd p) * ph) (cam_up cam))).
  set (xs := coordinate_range xmin xmax iw); set (ys := coordinate_range ymin ymax ih).
  rewrite (map_res_ok _ (fun p => (fst p, snd p, Ray (src p) (cam_forward cam) (Fin 0) INFINITY))).
  2: { intros [x y] _; unfold mk_ray_default, mk_ray; rewrite (normalized_unit _ Hf); reflexivity. }
  eexists; split; [reflexivity|]; split; [|split].
  - rewrite length_map, length_pixel_order; unfold ray_count; fold xs ys; lia.
  - apply (map_fst_pixel_order (fun p => Ray (src p) (cam_forward cam) (Fin 0) INFINITY)).
  - apply Forall_forall; intros p Hp; apply in_map_iff in Hp as ([x y] & <- & _); cbn.
    repeat split.
Qed.

Lemma normalized_scale a d : normalized a = Ok d -> exists k, d = vscale k a.
Proof.
  intros H; apply normalized_ok in H as [_ ->]; exists (/ norm a).
  unfold vscale; f_equal; unfold Rdiv; ring.
Qed.

(** [Orthographic(position, up, forward, width, height)] that succeeds
    leaves [forward], [up] and [right] of unit length and pairwise
    orthogonal, and keeps the position, width and height. *)
Theorem orthographic_frame position up forward w h cam :
  mk_orthographic position up forward w h = Ok cam ->
  norm2 (cam_forward cam) = 1 /\ norm2 (cam_up cam) = 1 /\ norm2 (cam_right cam) = 1 /\
  vdot (cam_up cam) (cam_forward cam) = 0 /\ vdot (cam_right cam) (cam_forward cam) = 0 /\
  vdot (cam_right cam) (cam_up cam) = 0 /\
  cam_position cam = position /\ cam_width cam = w /\ cam_height cam = h.
Proof.
  unfold mk_orthographic.
  destruct (normalized forward) as [f|e] eqn:Ef; [|discriminate]; cbn [bind].
  destruct (normalized (vsub up (vscale (vdot up f) f))) as [u|e] eqn:Eu; [|discriminate]; cbn [bind].
  destruct (normalized (cross forward up)) as [rt|e] eqn:Er; [|discriminate]; cbn [bind].
  intros H; injection H as <-; cbn.
  pose proof (normalized_ok_unit _ _ Ef) as Uf.
  pose proof (normalized_ok_unit _ _ Eu) as Uu.
  pose proof (normalized_ok_unit _ _ Er) as Ur.
  destruct (normalized_scale _ _ Ef) as [kf ->].
  destruct (normalized_scale _ _ Eu) as [ku ->].
  destruct (normalized_scale _ _ Er) as [kr ->].
  destruct forward as [a b c], up as [p q s].
  unfold norm2, vdot, vscale, vsub, cross in *; cbn in *.
  repeat split; try assumption.
  - set (D := p * (kf * a) + q * (kf * b) + s * (kf * c)).
    set (F := kf * a * (kf * a) + kf * b * (kf * b) + kf * c * (kf * c)) in *.
    transitivity (ku * (D - D * F)); [unfold D, F; ring|].
    rewrite Uf; ring.
  - ring.
  - ring.
Qed.


Lemma reflected_preserves_norm_witness :
  norm2 (Vec 0 0 1) = 1 /\
  norm2 (reflected (Vec 1 0 (-1)) (Vec 0 0 1)) = norm2 (Vec 1 0 (-1)).
Proof.
  assert (H : norm2 (Vec 0 0 1) = 1) by (unfold norm2, vdot; simpl; ring).
  split; [exact H|exact (reflected_preserves_norm _ _ H)].
Defined.

Lemma ray_neg_involutive_witness :
  norm2 (direction ray_x_through) = 1 /\
  exists r', ray_neg ray_x_through = Ok r' /\
    source r' = source ray_x_through /\ direction r' = vneg (direction ray_x_through) /\
    min_distance r' = min_distance ray_x_through /\ max_distance r' = max_distance ray_x_through /\
    ray_neg r' = Ok ray_x_through.
Proof.
  assert (H : norm2 (direction ray_x_through) = 1) by (unfold norm2, vdot; simpl; ring).
  split; [exact H|exact (ray_neg_involutive _ H)].
Defined.

Lemma unit_sphere_distance_from_below : sphere_distance (Vec 0 0 1) 1 ray_up_from_minus10 = Some 0.
Proof. unfold ray_up_from_minus10; evr; feq. Qed.

Lemma sphere_hit_on_surface_witness :
  norm2 (direction ray_up_from_minus10) = 1 /\
  sphere_distance (Vec 0 0 1) 1 ray_up_from_minus10 = Some 0 /\
  in_range ray_up_from_minus10 (Fin 0) = true /\
  norm2 (vsub (point ray_up_from_minus10 0) (Vec 0 0 1)) = 1 * 1 /\
  (0 <= 1 -> in_box (sphere_bounding_box (Vec 0 0 1) 1) (point ray_up_from_minus10 0) = true).
Proof.
  assert (H : norm2 (direction ray_up_from_minus10) = 1) by (unfold norm2, vdot; simpl; ring).
  split; [exact H|split; [exact unit_sphere_distance_from_below|]].
  exact (sphere_hit_on_surface _ _ _ _ H unit_sphere_distance_from_below).
Defined.

Lemma sphere_intersection_normal_witness :
  norm2 (direction ray_up_from_minus10) = 1 /\
  sphere_distance (Vec 0 0 1) 1 ray_up_from_minus10 = Some 0 /\
  sphere_intersection (Vec 0 0 1) 1 ray_up_from_minus10 false = Ok (Some (Fin 0), None) /\
  (1 <> 0 -> sphere_intersection (Vec 0 0 1) 1 ray_up_from_minus10 true =
     Ok (Some (Fin 0), Some (vscale (/ Rabs 1) (vsub (point ray_up_from_minus10 0) (Vec 0 0 1))))) /\
  (1 = 0 -> sphere_intersection (Vec 0 0 1) 1 ray_up_from_minus10 true = Err ZeroDivisionError).
Proof.
  assert (H : norm2 (direction ray_up_from_minus10) = 1) by (unfold norm2, vdot; simpl; ring).
  split; [exact H|split; [exact unit_sphere_distance_from_below|]].
  exact (sphere_intersection_normal _ _ _ _ H unit_sphere_distance_from_below).
Defined.

Lemma xy_plane_built : mk_plane (Vec 0 0 0) (Vec 0 0 1) = Ok (MkPlane (Vec 0 0 0) (Vec 0 0 1) 0).
Proof. unfold mk_plane; evr; f_equal; f_equal; [f_equal|]; lra. Qed.

Lemma plane_intersection_on_plane_witness :
  0 < 1 / 1000 /\ mk_plane (Vec 0 0 0) (Vec 0 0 1) = Ok (MkPlane (Vec 0 0 0) (Vec 0 0 1) 0) /\
  norm2 (Vec 0 0 1) = 1 /\
  exists d, plane_intersection (1 / 1000) (MkPlane (Vec 0 0 0) (Vec 0 0 1) 0) ray_up_from_minus10 true
              = Ok (d, Some (Vec 0 0 1)) /\
    (Rabs (vdot (direction ray_up_from_minus10) (Vec 0 0 1)) < 1 / 1000 -> d = None) /\
    forall t, d = Some (Fin t) ->
      in_range ray_up_from_minus10 (Fin t) = true /\
      vdot (vsub (point ray_up_from_minus10 t) (Vec 0 0 0)) (Vec 0 0 1) = 0.
Proof.
  assert (H : 0 < 1 / 1000) by lra.
  split; [exact H|split; [exact xy_plane_built|]].
  exact (plane_intersection_on_plane _ _ _ _ ray_up_from_minus10 true H xy_plane_built).
Defined.

Lemma clamp_within_bounds_witness :
  0 <= 0 <= 1 /\
  0 <= red (clamp (Colour 2 (1/2) 0) 0 1) <= 1 /\ 0 <= green (clamp (Colour 2 (1/2) 0) 0 1) <= 1 /\
  0 <= blue (clamp (Colour 2 (1/2) 0) 0 1) <= 1 /\
  clamp (clamp (Colour 2 (1/2) 0) 0 1) 0 1 = clamp (Colour 2 (1/2) 0) 0 1.
Proof.
  assert (H : 0 <= 0 <= 1) by lra.
  split; [exact H|exact (clamp_within_bounds _ _ _ H)].
Defined.

Lemma box01_not_nan : box_not_nan box01.
Proof. repeat split; discriminate. Qed.

Lemma combine_contains_witness :
  box_not_nan box01 /\ box_not_nan (sphere_bounding_box (Vec 0 0 1) 1) /\
  box_within box01 (combine box01 (sphere_bounding_box (Vec 0 0 1) 1)) = true /\
  box_within (sphere_bounding_box (Vec 0 0 1) 1) (combine box01 (sphere_bounding_box (Vec 0 0 1) 1)) = true /\
  box_not_nan (combine box01 (sphere_bounding_box (Vec 0 0 1) 1)) /\
  forall p, in_box box01 p = true \/ in_box (sphere_bounding_box (Vec 0 0 1) 1) p = true ->
    in_box (combine box01 (sphere_bounding_box (Vec 0 0 1) 1)) p = true.
Proof.
  assert (H2 : box_not_nan (sphere_bounding_box (Vec 0 0 1) 1)) by (repeat split; discriminate).
  split; [exact box01_not_nan|split; [exact H2|]].
  exact (combine_contains _ _ box01_not_nan H2).
Defined.

Lemma overlap_is_intersection_witness :
  box_not_nan box01 /\ box_not_nan (sphere_bounding_box (Vec 0 0 1) 1) /\
  (forall o, overlap box01 (sphere_bounding_box (Vec 0 0 1) 1) = Some o ->
     box_within o box01 = true /\ box_within o (sphere_bounding_box (Vec 0 0 1) 1) = true /\
     forall p, in_box o p = in_box box01 p && in_box (sphere_bounding_box (Vec 0 0 1) 1) p) /\
  (overlap box01 (sphere_bounding_box (Vec 0 0 1) 1) = None ->
     forall p, in_box box01 p && in_box (sphere_bounding_box (Vec 0 0 1) 1) p = false).
Proof.
  assert (H2 : box_not_nan (sphere_bounding_box (Vec 0 0 1) 1)) by (repeat split; discriminate).
  split; [exact box01_not_nan|split; [exact H2|]].
  exact (overlap_is_intersection _ _ box01_not_nan H2).
Defined.

Lemma compute_tree_bounds_witness :
  (forall o, In o [0%nat; 1%nat] -> exists b, twin_bounding_box o = Ok (Some b) /\ box_not_nan b) /\
  tree_loop nat twin_bounding_box (map Leaf [0%nat; 1%nat]) (Ok twin_group) /\
  exists t root, Ok twin_group = Ok t /\ Permutation [0%nat; 1%nat] (leaves nat t) /\
    tree_bounding_box nat twin_bounding_box t = Ok (Some root) /\
    forall o b, In o [0%nat; 1%nat] -> twin_bounding_box o = Ok (Some b) -> box_within b root = true.
Proof.
  assert (H : forall o, In o [0%nat; 1%nat] -> exists b, twin_bounding_box o = Ok (Some b) /\ box_not_nan b)
    by (intros o _; exists box01; split; [reflexivity|exact box01_not_nan]).
  split; [exact H|split; [exact twin_tree_loop|]].
  exact (compute_tree_bounds nat twin_bounding_box _ _ H twin_tree_loop).
Defined.



Lemma compute_colour_in_unit_cube_witness :
  compute_colour unit mirror_material mirror_scene [] no_contribution no_contribution
    no_contribution 0 1 (Ray (Vec 0 0 0) (Vec 0 0 1) (Fin 0) INFINITY) 0 None
  = Some (Ok (clamped (Colour 0 0 0))) /\
  0 <= red (clamped (Colour 0 0 0)) <= 1 /\ 0 <= green (clamped (Colour 0 0 0)) <= 1 /\
  0 <= blue (clamped (Colour 0 0 0)) <= 1.
Proof.
  assert (H : compute_colour unit mirror_material mirror_scene [] no_contribution no_contribution
    no_contribution 0 1 (Ray (Vec 0 0 0) (Vec 0 0 1) (Fin 0) INFINITY) 0 None
    = Some (Ok (clamped (Colour 0 0 0)))).
  { simpl; unfold reflectivity_of, mirror_material, mirror; cbn [reflectivity].
    rewrite (Reqb_f 1 0) by lra; reflexivity. }
  split; [exact H|exact (compute_colour_in_unit_cube _ _ _ _ _ _ _ _ _ _ _ _ _ H)].
Defined.

Lemma ortho_rays_grid_witness :
  (2 <> 0)%Z /\ (2 <> 0)%Z /\ norm2 (cam_forward ortho_cam) = 1 /\
  exists rays, ortho_rays ortho_cam 2 2 0 None 0 None = Ok rays /\
    Z.of_nat (length rays) = ray_count 2 2 0 None 0 None /\
    map (fun p : Z * Z * ray => let '(x, y, _) := p in (x, y)) rays =
      pixel_order (coordinate_range 0 None 2) (coordinate_range 0 None 2) /\
    Forall (fun p : Z * Z * ray => let '(_, _, r) := p in
      direction r = cam_forward ortho_cam /\ min_distance r = Fin 0 /\ max_distance r = INFINITY) rays.
Proof.
  assert (H1 : (2 <> 0)%Z) by lia.
  assert (H2 : norm2 (cam_forward ortho_cam) = 1) by (unfold norm2, vdot; simpl; ring).
  split; [exact H1|split; [exact H1|split; [exact H2|]]].
  exact (ortho_rays_grid _ _ _ _ _ _ _ H1 H1 H2).
Defined.

Lemma ortho_cam_built :
  mk_orthographic (Vec 0 0 0) (Vec 0 1 0) (Vec 0 0 1) 2 2 = Ok ortho_cam.
Proof.
  unfold mk_orthographic, ortho_cam, cross; evr.
  repeat match goal with |- context [sqrt ?e] => rewrite (sqrt_of_1 e) by lra end.
  evr; feq.
  f_equal; [f_equal|f_equal|f_equal]; field.
Qed.

Lemma orthographic_frame_witness :
  mk_orthographic (Vec 0 0 0) (Vec 0 1 0) (Vec 0 0 1) 2 2 = Ok ortho_cam /\
  norm2 (cam_forward ortho_cam) = 1 /\ norm2 (cam_up ortho_cam) = 1 /\ norm2 (cam_right ortho_cam) = 1 /\
  vdot (cam_up ortho_cam) (cam_forward ortho_cam) = 0 /\ vdot (cam_right ortho_cam) (cam_forward ortho_cam) = 0 /\
  vdot (cam_right ortho_cam) (cam_up ortho_cam) = 0 /\
  cam_position ortho_cam = Vec 0 0 0 /\ cam_width ortho_cam = 2 /\ cam_height ortho_cam = 2.
Proof.
  split; [exact ortho_cam_built|exact (orthographic_frame _ _ _ _ _ _ ortho_cam_built)].
Defined.

Open Scope Z_scope.

Lemma setitem_then_getitem_witness :
  exists rr', setitem (mk_render_result 2 1 [CRed; CGreen; CBlue]) 1 0 CGreen 7 = Ok rr' /\
  width rr' = width (mk_render_result 2 1 [CRed; CGreen; CBlue]) /\
  height rr' = height (mk_render_result 2 1 [CRed; CGreen; CBlue]) /\
  component_index rr' = component_index (mk_render_result 2 1 [CRed; CGreen; CBlue]) /\
  row_stride rr' = row_stride (mk_render_result 2 1 [CRed; CGreen; CBlue]) /\
  getitem rr' 1 0 CGreen = Ok 7 /\
  forall x' y' c', result_slot (mk_render_result 2 1 [CRed; CGreen; CBlue]) x' y' c' <>
                   result_slot (mk_render_result 2 1 [CRed; CGreen; CBlue]) 1 0 CGreen ->
    getitem rr' x' y' c' = getitem (mk_render_result 2 1 [CRed; CGreen; CBlue]) x' y' c'.
Proof.
  destruct (setitem (mk_render_result 2 1 [CRed; CGreen; CBlue]) 1 0 CGreen 7) as [rr'|e] eqn:E;
    [|discriminate E].
  exists rr'; split; [reflexivity|exact (setitem_then_getitem _ _ _ _ _ _ E)].
Defined.

Lemma rgb_result_well_formed :
  result_well_formed (mk_render_result 2 1 [CRed; CGreen; CBlue]) [CRed; CGreen; CBlue].
Proof. apply mk_render_result_well_formed; repeat constructor; simpl; intuition discriminate. Qed.

Lemma missing_component_raises_witness :
  result_well_formed (mk_render_result 2 1 [CRed; CGreen; CBlue]) [CRed; CGreen; CBlue] /\
  ~ In CAlpha [CRed; CGreen; CBlue] /\
  getitem (mk_render_result 2 1 [CRed; CGreen; CBlue]) 0 0 CAlpha = Err KeyError /\
  setitem (mk_render_result 2 1 [CRed; CGreen; CBlue]) 0 0 CAlpha 7 = Err KeyError.
Proof.
  assert (H : ~ In CAlpha [CRed; CGreen; CBlue]) by (simpl; intuition discriminate).
  split; [exact rgb_result_well_formed|split; [exact H|]].
  exact (missing_component_raises _ _ 0 0 _ 7 rgb_result_well_formed H).
Defined.

Lemma result_2x2_well_formed :
  result_well_formed (mk_render_result 2 2 [CRed; CGreen; CBlue]) [CRed; CGreen; CBlue].
Proof. apply mk_render_result_well_formed; repeat constructor; simpl; intuition discriminate. Qed.

Lemma next_row_alias_witness :
  result_well_formed (mk_render_result 2 2 [CRed; CGreen; CBlue]) [CRed; CGreen; CBlue] /\
  result_index (mk_render_result 2 2 [CRed; CGreen; CBlue]) (0 + width (mk_render_result 2 2 [CRed; CGreen; CBlue])) 0 CBlue =
    result_index (mk_render_result 2 2 [CRed; CGreen; CBlue]) 0 (0 + 1) CBlue /\
  getitem (mk_render_result 2 2 [CRed; CGreen; CBlue]) (0 + width (mk_render_result 2 2 [CRed; CGreen; CBlue])) 0 CBlue =
    getitem (mk_render_result 2 2 [CRed; CGreen; CBlue]) 0 (0 + 1) CBlue /\
  setitem (mk_render_result 2 2 [CRed; CGreen; CBlue]) (0 + width (mk_render_result 2 2 [CRed; CGreen; CBlue])) 0 CBlue 7 =
    setitem (mk_render_result 2 2 [CRed; CGreen; CBlue]) 0 (0 + 1) CBlue 7.
Proof.
  split; [exact result_2x2_well_formed|].
  exact (next_row_alias _ _ 0 0 CBlue 7 result_2x2_well_formed).
Defined.

Lemma fromfile_checks_magic_witness :
  firstn 4 [0; 0; 0; 0] <> magic /\ fromfile plain_decompress [0; 0; 0; 0] = Err AssertionError.
Proof.
  assert (H : firstn 4 [0; 0; 0; 0] <> magic) by discriminate.
  split; [exact H|exact (fromfile_checks_magic plain_decompress _ H)].
Defined.

Close Scope Z_scope.
